(** * threadpool.hpp: a fixed-size worker pool, as a transition system

    The class [ThreadPool] of [threadpool.hpp] guards its queue, its idle
    counter and its stop flag with one mutex.  Every access to these members
    happens with the mutex held, so an execution of the program is an
    interleaving of its critical sections.  The development below takes one
    critical section (or one task invocation, which runs with the mutex
    released) as an atomic step of a state machine:

    - the members of the class are fields of the record [System], together
      with the control point of every spawned thread and the heap cells that
      [std::make_shared<std::packaged_task<...>>] allocates;
    - [std::condition_variable::wait(lock, pred)] is [while (!pred()) wait(lock)];
      a waiting thread may wake at any time (by a notification or spuriously),
      so a waiting thread is a thread whose next step is enabled in every
      state and re-evaluates the predicate ([cv_wait]); [notify_one] and
      [notify_all] change no member and are not steps of their own;
    - a callable is a Rocq function that either returns a value or raises;
      tasks do not call back into the pool;
    - [size_t] is the integers modulo [2 ^ 64].

    Thread creation and allocation are assumed to succeed. *)

From stdpp Require Import base numbers list sets.


(** ** Values of the C++ program *)

(** [size_t] arithmetic: unsigned, 64 bits, wrapping. *)
Definition size_t (z : Z) : Z := (z mod 2 ^ 64)%Z.

(** [std::vector::size()] and the like. *)
Definition size {A} (l : list A) : Z := Z.of_nat (length l).

Section Pool.
Context {val err : Type}.

(** What a call of a callable does: it returns or it throws. *)
Inductive outcome :=
| Returns (v : val)
| Raises (e : err).

(** The exceptions of the standard library that the code can meet, and the
    exception of a task seen through [std::future::get]. *)
Inductive exn :=
| system_error_invalid_argument           (* std::thread::join on a thread that is not joinable *)
| future_error_promise_already_satisfied  (* a std::packaged_task invoked twice *)
| task_exception (e : err).

(** The result of a call of a member function, seen from the caller. *)
Inductive call (A : Type) :=
| Done (a : A)
| Throw (x : exn)
| Blocked.
Arguments Done {A} a.
Arguments Throw {A} x.
Arguments Blocked {A}.

Definition call_bind {A B} (c : call A) (k : A → call B) : call B :=
  match c with
  | Done a => k a
  | Throw x => Throw x
  | Blocked => Blocked
  end.

(** [std::packaged_task<return_type()>]: the stored callable and the shared
    state that the future reads. *)
Record packaged_task := PackagedTask {
  stored_task : unit → outcome;
  shared_state : option outcome
}.

(** A [std::thread] object of [m_threads]. *)
Inductive thread :=
| Joinable
| NotJoinable.

(** Where a spawned thread stands in [work()]. *)
Inductive worker :=
| AtLock                 (* line 60: about to take m_mutex at the top of the loop *)
| TaskWait               (* line 66: inside m_task_cv.wait, mutex released *)
| Calling (task : nat)   (* lines 77-78: mutex released, task popped, task() not yet returned *)
| Finished               (* line 71: work() has returned *)
| Terminate.             (* an exception left work(), or undefined behaviour *)

(** The two lines that the code prints. *)
Inductive line :=
| work_line (idle_count threads : Z)   (* line 63 *)
| wait_line (idle_count threads : Z).  (* line 54 *)

(** The members of [ThreadPool] (lines 82-88), and around them the threads,
    the heap and the output.  A [std::function<void()>] of [m_tasks] is the
    closure of line 30, which captures [task_ptr] and calls the packaged
    task behind it: it is represented by [task_ptr], the address of the
    packaged task in [heap].  The last three fields are
    history: the tasks in the order of their [m_tasks.push], of their
    [m_tasks.pop] and of the return of their [task()]. *)
Record System := mkSystem {
  m_tasks : list nat;
  m_idle_count : Z;
  m_stop : bool;
  m_threads : list thread;
  workers : list worker;
  heap : list packaged_task;
  cout : list line;
  pushed : list nat;
  popped : list nat;
  invoked : list nat
}.

Definition set_m_tasks (q : list nat) (s : System) : System :=
  mkSystem q (m_idle_count s) (m_stop s) (m_threads s) (workers s) (heap s)
           (cout s) (pushed s) (popped s) (invoked s).
Definition set_m_idle_count (c : Z) (s : System) : System :=
  mkSystem (m_tasks s) c (m_stop s) (m_threads s) (workers s) (heap s)
           (cout s) (pushed s) (popped s) (invoked s).
Definition set_m_stop (b : bool) (s : System) : System :=
  mkSystem (m_tasks s) (m_idle_count s) b (m_threads s) (workers s) (heap s)
           (cout s) (pushed s) (popped s) (invoked s).
Definition set_m_threads (ts : list thread) (s : System) : System :=
  mkSystem (m_tasks s) (m_idle_count s) (m_stop s) ts (workers s) (heap s)
           (cout s) (pushed s) (popped s) (invoked s).
Definition set_workers (ws : list worker) (s : System) : System :=
  mkSystem (m_tasks s) (m_idle_count s) (m_stop s) (m_threads s) ws (heap s)
           (cout s) (pushed s) (popped s) (invoked s).
Definition set_heap (h : list packaged_task) (s : System) : System :=
  mkSystem (m_tasks s) (m_idle_count s) (m_stop s) (m_threads s) (workers s) h
           (cout s) (pushed s) (popped s) (invoked s).
Definition print (l : line) (s : System) : System :=
  mkSystem (m_tasks s) (m_idle_count s) (m_stop s) (m_threads s) (workers s) (heap s)
           (cout s ++ [l]) (pushed s) (popped s) (invoked s).
Definition log_pushed (t : nat) (s : System) : System :=
  mkSystem (m_tasks s) (m_idle_count s) (m_stop s) (m_threads s) (workers s) (heap s)
           (cout s) (pushed s ++ [t]) (popped s) (invoked s).
Definition log_popped (t : nat) (s : System) : System :=
  mkSystem (m_tasks s) (m_idle_count s) (m_stop s) (m_threads s) (workers s) (heap s)
           (cout s) (pushed s) (popped s ++ [t]) (invoked s).
Definition log_invoked (t : nat) (s : System) : System :=
  mkSystem (m_tasks s) (m_idle_count s) (m_stop s) (m_threads s) (workers s) (heap s)
           (cout s) (pushed s) (popped s) (invoked s ++ [t]).

(** ** The constructor (lines 14-19)

    [n_threads] is converted to [size_t].  [m_stop] has the default member
    initializer [= false] (line 87); [m_idle_count] (line 86) has none and no
    constructor initializes it, so it keeps what the storage of the object
    held: [raw].  The constructor holds [m_mutex] while it spawns, so every
    worker still stands before its first [lock] when the constructor
    returns. *)
Definition ThreadPool (raw : Z) (n_threads : Z) : System :=
  let n := Z.to_nat (size_t n_threads) in
  {| m_tasks := [];
     m_idle_count := size_t raw;
     m_stop := false;
     m_threads := replicate n Joinable;
     workers := replicate n AtLock;
     heap := [];
     cout := [];
     pushed := [];
     popped := [];
     invoked := [] |}.

(** The default argument of line 14; [hardware_concurrency] is what
    [std::thread::hardware_concurrency()] returns on the machine. *)
Definition ThreadPool_default (hardware_concurrency : Z) (raw : Z) : System :=
  ThreadPool raw hardware_concurrency.

(** ** push (lines 21-36) *)
Definition push {A} (f : A → outcome) (args : A) (s : System) : call (nat * System) :=
  let f_bound : unit → outcome := λ _, f args in      (* line 24 *)
  let task_ptr := length (heap s) in                   (* line 25 *)
  let future := task_ptr in                            (* line 26 *)
  let s := set_heap (heap s ++ [PackagedTask f_bound None]) s in
  let s := set_m_tasks (m_tasks s ++ [task_ptr]) s in  (* lines 31-33 *)
  Done (future, log_pushed task_ptr s).

(** [std::future::get]. *)
Definition future_get (future : nat) (s : System) : call val :=
  match heap s !! future with
  | Some pt =>
      match shared_state pt with
      | Some (Returns v) => Done v
      | Some (Raises e) => Throw (task_exception e)
      | None => Blocked
      end
  | None => Blocked
  end.

(** What [get()] gives for an outcome stored in the shared state. *)
Definition surfaces (r : outcome) : call val :=
  match r with
  | Returns v => Done v
  | Raises e => Throw (task_exception e)
  end.

(** [std::packaged_task::operator()]: runs the stored callable and stores
    what it returned or threw in the shared state; throws when the shared
    state is already set. *)
Definition packaged_task_call (task_ptr : nat) (h : list packaged_task)
    : call (list packaged_task) :=
  match h !! task_ptr with
  | Some pt =>
      match shared_state pt with
      | None =>
          Done (<[task_ptr := PackagedTask (stored_task pt) (Some (stored_task pt ()))]> h)
      | Some _ => Throw future_error_promise_already_satisfied
      end
  | None => Blocked
  end.

(** ** join (lines 38-46) *)

(** Lines 39-41. *)
Definition join_stop (s : System) : System := set_m_stop true s.

(** [t.join()] on [m_threads[i]]. *)
Definition thread_join (i : nat) (s : System) : call System :=
  match m_threads s !! i with
  | Some Joinable =>
      match workers s !! i with
      | Some Finished => Done (set_m_threads (<[i := NotJoinable]> (m_threads s)) s)
      | _ => Blocked
      end
  | Some NotJoinable => Throw system_error_invalid_argument
  | None => Blocked
  end.

(** The loop of lines 43-45 from index [i], with [k] threads to go. *)
Fixpoint join_threads (i k : nat) (s : System) : call System :=
  match k with
  | 0 => Done s
  | S k => call_bind (thread_join i s) (join_threads (S i) k)
  end.

(** A call of [join()] that no other thread interleaves with. *)
Definition join (s : System) : call System :=
  let s := join_stop s in
  join_threads 0 (length (m_threads s)) s.

(** ** wait (lines 51-55) *)

(** [cv.wait(lock, pred)]: [seen] lists the states in which the caller holds
    the lock and evaluates [pred], on entry and after every wakeup. *)
Fixpoint cv_wait (pred : System → bool) (seen : list System) : option System :=
  match seen with
  | [] => None
  | s :: seen => if pred s then Some s else cv_wait pred seen
  end.

(** The predicate of line 53. *)
Definition all_idle (s : System) : bool :=
  bool_decide (m_tasks s = []) && (m_idle_count s =? size (m_threads s))%Z.

Definition wait_seen (seen : list System) : call System :=
  match cv_wait all_idle seen with
  | Some s => Done (print (wait_line (m_idle_count s) (size (m_threads s))) s)
  | None => Blocked
  end.

(** [wait()] evaluated in one state: it returns there or stays blocked. *)
Definition wait (s : System) : call System := wait_seen [s].

(** ** work (lines 58-80) *)

(** The predicate of line 66. *)
Definition task_or_stop (s : System) : bool :=
  negb (bool_decide (m_tasks s = [])) || m_stop s.

(** Lines 67-76, with the mutex held and the predicate of line 66 true. *)
Definition work_take (i : nat) (s : System) : System :=
  let s := set_m_idle_count (size_t (m_idle_count s - 1)%Z) s in
  if m_stop s && bool_decide (m_tasks s = []) then
    set_workers (<[i := Finished]> (workers s)) s
  else
    match m_tasks s with
    | task :: rest =>
        log_popped task (set_workers (<[i := Calling task]> (workers s)) (set_m_tasks rest s))
    | [] => set_workers (<[i := Terminate]> (workers s)) s   (* front() of an empty queue *)
    end.

(** Lines 60-66 and, when the predicate holds at once, lines 67-76. *)
Definition work_lock (i : nat) (s : System) : System :=
  let s := set_m_idle_count (size_t (m_idle_count s + 1)%Z) s in
  let s :=
    if (m_idle_count s =? size (m_threads s))%Z
    then print (work_line (m_idle_count s) (size (m_threads s))) s
    else s in
  if task_or_stop s then work_take i s
  else set_workers (<[i := TaskWait]> (workers s)) s.

(** A wakeup inside the wait of line 66. *)
Definition work_wake (i : nat) (s : System) : System :=
  if task_or_stop s then work_take i s else s.

(** Line 78. *)
Definition work_call (i task : nat) (s : System) : System :=
  match packaged_task_call task (heap s) with
  | Done h => log_invoked task (set_workers (<[i := AtLock]> (workers s)) (set_heap h s))
  | _ => set_workers (<[i := Terminate]> (workers s)) s
  end.

(** The next atomic step of worker [i]. *)
Definition work (i : nat) (s : System) : option System :=
  match workers s !! i with
  | Some AtLock => Some (work_lock i s)
  | Some TaskWait => Some (work_wake i s)
  | Some (Calling task) => Some (work_call i task s)
  | _ => None
  end.

(** ** Executions *)

Inductive event :=
| EPush {A : Type} (f : A → outcome) (args : A)
| EJoinStop
| EJoinThread (i : nat)
| EWait
| EWork (i : nat).

Definition call_state {A} (c : call A) (st : A → System) : option System :=
  match c with
  | Done a => Some (st a)
  | _ => None
  end.

Definition step (e : event) (s : System) : option System :=
  match e with
  | EPush f args => call_state (push f args s) snd
  | EJoinStop => Some (join_stop s)
  | EJoinThread i => call_state (thread_join i s) id
  | EWait => call_state (wait s) id
  | EWork i => work i s
  end.

Fixpoint run (es : list event) (s : System) : option System :=
  match es with
  | [] => Some s
  | e :: es =>
      match step e s with
      | Some s => run es s
      | None => None
      end
  end.

Inductive steps (s0 : System) : System → Prop :=
| steps_refl : steps s0 s0
| steps_step s e s' : steps s0 s → step e s = Some s' → steps s0 s'.

(** ** Observations on the workers *)

Global Instance worker_eq_dec : EqDecision worker.
Proof. solve_decision. Defined.

Global Instance thread_eq_dec : EqDecision thread.
Proof. solve_decision. Defined.

(** The task that a worker is executing, if any. *)
Definition calling_task (w : worker) : option nat :=
  match w with
  | Calling task => Some task
  | _ => None
  end.

(** The tasks in execution, and the number of workers inside the wait of
    line 66. *)
Definition calling (ws : list worker) : list nat := omap calling_task ws.
Definition waiting (ws : list worker) : nat := length (filter (λ w, w = TaskWait) ws).

(** ** The ways through the loop body

    One step of worker [i], case by case: the worker blocks (or stays
    blocked) in the wait of line 66, returns at line 71, pops a task at lines
    74-76, or comes back from [task()] at line 78. *)

(** [m_idle_count] after line 62, which a worker that wakes inside the wait
    has already passed. *)
Definition counted (w : worker) (idle_count : Z) : Z :=
  match w with
  | AtLock => size_t (idle_count + 1)
  | _ => idle_count
  end.

Definition before_wait (w : worker) : Prop := w = AtLock ∨ w = TaskWait.

Inductive work_step (i : nat) (s : System) : System → Prop :=
| work_blocks w o :
    workers s !! i = Some w → before_wait w → task_or_stop s = false →
    work_step i s
      (mkSystem (m_tasks s) (counted w (m_idle_count s)) (m_stop s) (m_threads s)
                (<[i := TaskWait]> (workers s)) (heap s) o
                (pushed s) (popped s) (invoked s))
| work_returns w o :
    workers s !! i = Some w → before_wait w → m_stop s = true → m_tasks s = [] →
    work_step i s
      (mkSystem [] (size_t (counted w (m_idle_count s) - 1)) true (m_threads s)
                (<[i := Finished]> (workers s)) (heap s) o
                (pushed s) (popped s) (invoked s))
| work_pops w o task rest :
    workers s !! i = Some w → before_wait w → m_tasks s = task :: rest →
    work_step i s
      (mkSystem rest (size_t (counted w (m_idle_count s) - 1)) (m_stop s) (m_threads s)
                (<[i := Calling task]> (workers s)) (heap s) o
                (pushed s) (popped s ++ [task]) (invoked s))
| work_calls task pt :
    workers s !! i = Some (Calling task) →
    heap s !! task = Some pt → shared_state pt = None →
    work_step i s
      (mkSystem (m_tasks s) (m_idle_count s) (m_stop s) (m_threads s)
                (<[i := AtLock]> (workers s))
                (<[task := PackagedTask (stored_task pt) (Some (stored_task pt ()))]> (heap s))
                (cout s) (pushed s) (popped s) (invoked s ++ [task]))
| work_terminates task :
    workers s !! i = Some (Calling task) →
    (∀ pt, heap s !! task = Some pt → shared_state pt ≠ None) →
    work_step i s (set_workers (<[i := Terminate]> (workers s)) s).

(** ** The invariant of the queue, the heap and the history *)

Record consistent (s : System) : Prop := {
  inv_threads : length (workers s) = length (m_threads s);
  inv_fifo : pushed s = popped s ++ m_tasks s;
  inv_fresh : pushed s = seq 0 (length (heap s));
  inv_popped : popped s ≡ₚ invoked s ++ calling (workers s);
  inv_shared : ∀ t pt, heap s !! t = Some pt →
    shared_state pt = if decide (t ∈ invoked s) then Some (stored_task pt ()) else None;
  inv_alive : Terminate ∉ workers s;
  inv_single : length (workers s) = 1 → popped s = invoked s ++ calling (workers s)
}.

(** ** The idle counter, when it starts at zero *)

Record idle_counted (s : System) : Prop := {
  idle_waiting : m_idle_count s = Z.of_nat (waiting (workers s));
  idle_threads : length (workers s) = length (m_threads s);
  idle_size : (size (m_threads s) < 2 ^ 64)%Z
}.

(** ** Shutdown: what is left to do, and a schedule that does it *)

(** The work that remains once the stop flag is set: three units for a
    queued task (pop, call, and the step back to the lock), two for a task in
    execution, one for a worker that has yet to see the flag. *)
Definition weight (w : worker) : nat :=
  match w with
  | AtLock | TaskWait => 1
  | Calling _ => 2
  | Finished | Terminate => 0
  end.

Definition remaining (s : System) : nat :=
  3 * length (m_tasks s) + sum_list_with weight (workers s).

(** A schedule of the workers: the first worker that has not returned takes
    its next step, [fuel] times at most. *)
Definition running (w : worker) : Prop := w ≠ Finished ∧ w ≠ Terminate.

Global Instance running_dec (w : worker) : Decision (running w).
Proof. unfold running. apply _. Defined.

Fixpoint drain (fuel : nat) (s : System) : System :=
  match fuel with
  | 0 => s
  | S fuel =>
      match list_find running (workers s) with
      | Some (i, _) =>
          match work i s with
          | Some s' => drain fuel s'
          | None => s
          end
      | None => s
      end
  end.

(** When the last worker has returned, the queue is empty. *)
Definition left_empty (s : System) : Prop :=
  Forall (λ w, w = Finished) (workers s) → m_tasks s = [].

(** The call of task [t] has returned and [get()] on its future gives the
    outcome of the stored callable without blocking. *)
Definition ready (t : nat) (s : System) : Prop :=
  t ∈ invoked s
  ∧ ∃ pt, heap s !! t = Some pt ∧ future_get t s = surfaces (stored_task pt ()).

(** ** Observations on the events and on the output *)

(** The events that are a call of [push]. *)
Definition is_push (e : event) : bool :=
  match e with
  | EPush _ _ => true
  | _ => false
  end.

(** A printed line whose two numbers both are [n]. *)
Definition shows (n : Z) (l : line) : Prop :=
  match l with
  | work_line idle_count threads => idle_count = n ∧ threads = n
  | wait_line idle_count threads => idle_count = n ∧ threads = n
  end.

End Pool.

Arguments Done {err A} a.
Arguments Throw {err A} x.
Arguments Blocked {err A}.

(** ** Concrete runs

    Tasks over integers, with failures numbered by naturals. *)

Definition plus_one (x : Z) : @outcome Z nat := Returns (x + 1)%Z.
Definition always_fails (x : Z) : @outcome Z nat := Raises 42.

(** A pool of one worker in zeroed storage. *)
Definition pool1 : @System Z nat := ThreadPool 0 1.

(** Two pushes; the worker pops and calls the first task and pops the
    second. *)
Definition two_tasks : list (@event Z nat) :=
  [EPush plus_one 5%Z; EPush always_fails 1%Z; EWork 0; EWork 0; EWork 0].
Definition calling_second : @System Z nat :=
  Eval vm_compute in default pool1 (run two_tasks pool1).

(** Two pushes and the first lines of [join()]. *)
Definition stop_with_two : list (@event Z nat) :=
  [EPush plus_one 5%Z; EPush always_fails 1%Z; EJoinStop].
Definition stopping : @System Z nat :=
  Eval vm_compute in default pool1 (run stop_with_two pool1).

(** A whole call of [join()] on the idle pool: the flag, the exit of the
    worker, the join of its thread. *)
Definition whole_join : list (@event Z nat) :=
  [EJoinStop; EWork 0; EJoinThread 0].
Definition joined : @System Z nat :=
  Eval vm_compute in default pool1 (run whole_join pool1).

(** A pool of two workers in storage that held a one where [m_idle_count]
    lies: both workers reach the wait, a task is pushed, the first worker
    wakes and pops it. *)
Definition pool2_raw1 : @System Z nat := ThreadPool 1 2.
Definition one_in_flight : list (@event Z nat) :=
  [EWork 0; EWork 1; EPush plus_one 5%Z; EWork 0].
Definition in_flight : @System Z nat :=
  Eval vm_compute in default pool2_raw1 (run one_in_flight pool2_raw1).

(** The worker of [calling_second] calls the second task. *)
Definition call_second : list (@event Z nat) := [EWork 0].
Definition second_called : @System Z nat :=
  Eval vm_compute in default calling_second (run call_second calling_second).

(** A pool of two workers in storage that held a seven where [m_idle_count]
    lies; the first worker reaches the wait. *)
Definition pool2_raw7 : @System Z nat := ThreadPool 7 2.
Definition first_waits : list (@event Z nat) := [EWork 0].
Definition raw7_waiting : @System Z nat :=
  Eval vm_compute in default pool2_raw7 (run first_waits pool2_raw7).

(** A pool without workers, and one push. *)
Definition pool0 : @System Z nat := ThreadPool 0 0.
Definition one_push : list (@event Z nat) := [EPush plus_one 5%Z].
Definition queued_forever : @System Z nat :=
  Eval vm_compute in default pool0 (run one_push pool0).

(** From [stopping]: the worker executes the two tasks and returns, and its
    thread is joined. *)
Definition finish_two : list (@event Z nat) :=
  [EWork 0; EWork 0; EWork 0; EWork 0; EWork 0; EJoinThread 0].
Definition all_done : @System Z nat :=
  Eval vm_compute in default stopping (run finish_two stopping).

(** The worker of [pool1] reaches the wait. *)
Definition reach_wait : list (@event Z nat) := [EWork 0].
Definition idle1 : @System Z nat :=
  Eval vm_compute in default pool1 (run reach_wait pool1).

(** A push after the whole call of [join()]. *)
Definition joined_pushed : @System Z nat :=
  Eval vm_compute in default joined (run one_push joined).

(** The flag is set and the worker has returned; no thread is joined. *)
Definition stop_and_exit : list (@event Z nat) := [EJoinStop; EWork 0].
Definition exited : @System Z nat :=
  Eval vm_compute in default pool1 (run stop_and_exit pool1).

(** * Proofs *)

Section Proofs.
Context {val err : Type}.

Abbreviation outcome := (@outcome val err).
Abbreviation packaged_task := (@packaged_task val err).
Abbreviation System := (@System val err).
Abbreviation event := (@event val err).
Abbreviation ThreadPool := (@ThreadPool val err).
Abbreviation ThreadPool_default := (@ThreadPool_default val err).

(** ** Assignments to one worker *)

Lemma insert_split {A} (l : list A) (i : nat) (x y : A) :
  l !! i = Some x →
  ∃ l1 l2, l = l1 ++ x :: l2 ∧ <[i := y]> l = l1 ++ y :: l2.
Proof.
  intros Hi. exists (take i l), (drop (S i) l). split.
  - symmetry. by apply take_drop_middle.
  - apply insert_take_drop. by eapply lookup_lt_Some.
Qed.

Lemma calling_insert (ws : list worker) (i : nat) (w w' : worker) :
  ws !! i = Some w →
  ∃ rest, calling ws ≡ₚ option_list (calling_task w) ++ rest
        ∧ calling (<[i := w']> ws) ≡ₚ option_list (calling_task w') ++ rest.
Proof.
  intros Hi. destruct (insert_split ws i w w' Hi) as (l1 & l2 & -> & ->).
  exists (calling l1 ++ calling l2). unfold calling.
  rewrite !omap_app. simpl.
  split.
  - destruct (calling_task w); simpl; [by rewrite Permutation_middle | done].
  - destruct (calling_task w'); simpl; [by rewrite Permutation_middle | done].
Qed.

Lemma waiting_insert (ws : list worker) (i : nat) (w w' : worker) :
  ws !! i = Some w →
  ∃ rest, waiting ws = (if decide (w = TaskWait) then 1 else 0) + rest
        ∧ waiting (<[i := w']> ws) = (if decide (w' = TaskWait) then 1 else 0) + rest.
Proof.
  intros Hi. destruct (insert_split ws i w w' Hi) as (l1 & l2 & -> & ->).
  exists (waiting l1 + waiting l2). unfold waiting.
  rewrite !filter_app, !filter_cons, !length_app.
  split; case_decide; simpl; lia.
Qed.

Lemma waiting_le (ws : list worker) : waiting ws ≤ length ws.
Proof. unfold waiting. apply length_filter. Qed.

Lemma elem_of_insert_inv {A} (l : list A) (i : nat) (x y : A) :
  x ∈ <[i := y]> l → x = y ∨ x ∈ l.
Proof.
  intros Hx. apply list_elem_of_lookup in Hx as [j Hj].
  destruct (decide (i = j)) as [->|Hne].
  - destruct (decide (j < length l)).
    + rewrite list_lookup_insert_eq in Hj by done. left. congruence.
    + rewrite list_insert_ge in Hj by lia. right. apply list_elem_of_lookup. eauto.
  - rewrite list_lookup_insert_ne in Hj by done. right. apply list_elem_of_lookup. eauto.
Qed.

(** ** The ways through the loop body *)

Lemma work_take_step (i : nat) (w : worker) (s : System) (c : Z) (o : list line) :
  workers s !! i = Some w → before_wait w → task_or_stop s = true →
  c = counted w (m_idle_count s) →
  work_step i s
    (work_take i (mkSystem (m_tasks s) c (m_stop s) (m_threads s) (workers s) (heap s) o
                           (pushed s) (popped s) (invoked s))).
Proof.
  intros Hw Hb Hp ->. unfold work_take, task_or_stop in *. simpl.
  destruct (m_stop s) eqn:Hstop, (m_tasks s) as [|task rest] eqn:Hq;
    simpl in *; try done.
  - pose proof (work_returns i s w o Hw Hb Hstop Hq) as H. exact H.
  - pose proof (work_pops i s w o task rest Hw Hb Hq) as H.
    rewrite Hstop in H. exact H.
  - pose proof (work_pops i s w o task rest Hw Hb Hq) as H.
    rewrite Hstop in H. exact H.
Qed.

Lemma work_work_step (i : nat) (s s' : System) :
  work i s = Some s' → work_step i s s'.
Proof.
  unfold work. destruct (workers s !! i) as [w|] eqn:Hw; [|done].
  destruct w as [| |task| |]; intros [= <-].
  - (* line 60 *)
    unfold work_lock. simpl.
    set (c := size_t (m_idle_count s + 1)).
    assert (∃ o, (if (c =? size (m_threads s))%Z
                  then print (work_line c (size (m_threads s)))
                         (set_m_idle_count c s)
                  else set_m_idle_count c s)
                 = mkSystem (m_tasks s) c (m_stop s) (m_threads s) (workers s) (heap s) o
                            (pushed s) (popped s) (invoked s)) as [o ->].
    { destruct (c =? size (m_threads s))%Z; eexists; reflexivity. }
    destruct (task_or_stop s) eqn:Hp.
    + replace (task_or_stop (mkSystem _ _ _ _ _ _ _ _ _ _)) with true by (symmetry; exact Hp).
      eapply work_take_step; eauto. by left.
    + replace (task_or_stop (mkSystem _ _ _ _ _ _ _ _ _ _)) with false by (symmetry; exact Hp).
      apply (work_blocks i s AtLock o Hw); [by left | done].
  - (* a wakeup at line 66 *)
    unfold work_wake. destruct (task_or_stop s) eqn:Hp.
    + pose proof (work_take_step i TaskWait s (m_idle_count s) (cout s) Hw) as H.
      destruct s; apply H; auto. by right.
    + pose proof (work_blocks i s TaskWait (cout s) Hw) as H.
      rewrite list_insert_id in H by done.
      destruct s; apply H; auto. by right.
  - (* line 78 *)
    unfold work_call, packaged_task_call.
    destruct (heap s !! task) as [pt|] eqn:Hpt.
    + destruct (shared_state pt) as [r|] eqn:Hr.
      * apply (work_terminates i s task); [done|]. intros pt' ?. simplify_eq. by rewrite Hr.
      * exact (work_calls i s task pt Hw Hpt Hr).
    + apply (work_terminates i s task); [done|]. intros pt' ?. simplify_eq.
Qed.

(** ** The invariant of the queue, the heap and the history *)

Lemma calling_insert_single (ws : list worker) (i : nat) (w w' : worker) :
  length ws = 1 → ws !! i = Some w →
  calling ws = option_list (calling_task w)
  ∧ calling (<[i := w']> ws) = option_list (calling_task w').
Proof.
  destruct ws as [|w0 [|? ?]]; try done. intros _.
  destruct i as [|i]; [|done]. intros [= ->]. unfold calling. simpl.
  split; [by destruct (calling_task w) | by destruct (calling_task w')].
Qed.

Lemma consistent_init (raw n_threads : Z) : consistent (ThreadPool raw n_threads).
Proof.
  split; simpl; try done.
  - by rewrite !length_replicate.
  - unfold calling. induction (Z.to_nat _) as [|n IH]; simpl; done.
  - by intros [? ?]%elem_of_replicate.
  - intros _. unfold calling. induction (Z.to_nat _) as [|n IH]; simpl; done.
Qed.

(** A task in execution has been pushed, its packaged task is in the heap
    and has not been invoked. *)
Lemma calling_fresh (s : System) (i task : nat) :
  consistent s → workers s !! i = Some (Calling task) →
  (task ∉ invoked s) ∧ (∃ pt, heap s !! task = Some pt ∧ shared_state pt = None).
Proof.
  intros Hs Hw.
  destruct (calling_insert (workers s) i _ AtLock Hw) as (rest & Hc & _).
  simpl in Hc.
  pose proof (inv_popped s Hs) as Hp. rewrite Hc in Hp.
  assert (NoDup (popped s)) as Hnd.
  { assert (NoDup (popped s ++ m_tasks s)) as Hnd.
    { rewrite <- (inv_fifo s Hs), (inv_fresh s Hs). apply NoDup_seq. }
    by apply NoDup_app in Hnd as (? & _ & _). }
  assert (task ∈ pushed s) as Hin.
  { rewrite (inv_fifo s Hs), Hp. set_solver. }
  rewrite Hp in Hnd. apply NoDup_app in Hnd as (_ & Hdisj & _).
  assert (task ∉ invoked s) as Hni.
  { intros Hi. apply (Hdisj _ Hi). set_solver. }
  split; [done|].
  rewrite (inv_fresh s Hs) in Hin. apply elem_of_seq in Hin.
  destruct (lookup_lt_is_Some_2 (heap s) task) as [pt Hpt]; [lia|].
  exists pt. split; [done|].
  rewrite (inv_shared s Hs _ _ Hpt). by rewrite decide_False.
Qed.

Lemma consistent_work_step (i : nat) (s s' : System) :
  consistent s → work_step i s s' → consistent s'.
Proof.
  intros Hs Hstep.
  destruct Hstep as [w o Hw Hb Hp|w o Hw Hb Hstop Hq|w o task rest Hw Hb Hq
                    |task pt Hw Hpt Hr|task Hw Hbad].
  - (* blocks *)
    destruct (calling_insert (workers s) i w TaskWait Hw) as (rest & Hc & Hc').
    assert (calling_task w = None) as Hn by (by destruct Hb as [-> | ->]).
    rewrite Hn in Hc. simpl in Hc, Hc'.
    split; simpl.
    + rewrite length_insert. apply Hs.
    + apply Hs.
    + apply Hs.
    + rewrite Hc', <- Hc. apply Hs.
    + apply Hs.
    + intros Hin. apply elem_of_insert_inv in Hin as [|Hin]; [done|]. by apply (inv_alive s Hs).
    + rewrite length_insert. intros H1.
      destruct (calling_insert_single (workers s) i w TaskWait H1 Hw) as [E1 E2].
      rewrite Hn in E1. simpl in E1, E2. rewrite E2, <- E1. by apply Hs.
  - (* returns *)
    destruct (calling_insert (workers s) i w Finished Hw) as (rest & Hc & Hc').
    assert (calling_task w = None) as Hn by (by destruct Hb as [-> | ->]).
    rewrite Hn in Hc. simpl in Hc, Hc'.
    split; simpl.
    + rewrite length_insert. apply Hs.
    + rewrite (inv_fifo s Hs), Hq. done.
    + apply Hs.
    + rewrite Hc', <- Hc. apply Hs.
    + apply Hs.
    + intros Hin. apply elem_of_insert_inv in Hin as [|Hin]; [done|]. by apply (inv_alive s Hs).
    + rewrite length_insert. intros H1.
      destruct (calling_insert_single (workers s) i w Finished H1 Hw) as [E1 E2].
      rewrite Hn in E1. simpl in E1, E2. rewrite E2, <- E1. by apply Hs.
  - (* pops *)
    destruct (calling_insert (workers s) i w (Calling task) Hw) as (rest' & Hc & Hc').
    assert (calling_task w = None) as Hn by (by destruct Hb as [-> | ->]).
    rewrite Hn in Hc. simpl in Hc, Hc'.
    split; simpl.
    + rewrite length_insert. apply Hs.
    + rewrite (inv_fifo s Hs), Hq. by rewrite <- app_assoc.
    + apply Hs.
    + rewrite Hc', <- Hc, (inv_popped s Hs).
      rewrite <- !Permutation_middle. by rewrite app_nil_r.
    + apply Hs.
    + intros Hin. apply elem_of_insert_inv in Hin as [|Hin]; [done|]. by apply (inv_alive s Hs).
    + rewrite length_insert. intros H1.
      destruct (calling_insert_single (workers s) i w (Calling task) H1 Hw) as [E1 E2].
      rewrite Hn in E1. simpl in E1, E2.
      rewrite E2, (inv_single s Hs H1), E1. by rewrite app_nil_r.
  - (* calls *)
    destruct (calling_insert (workers s) i _ AtLock Hw) as (rest & Hc & Hc').
    simpl in Hc, Hc'.
    split; simpl.
    + rewrite length_insert. apply Hs.
    + apply Hs.
    + rewrite length_insert. apply Hs.
    + rewrite Hc', (inv_popped s Hs), Hc. by rewrite <- app_assoc.
    + intros t pt'. destruct (decide (task = t)) as [<-|Hne].
      * rewrite list_lookup_insert_eq by (by eapply lookup_lt_Some).
        intros [= <-]. simpl. rewrite decide_True; [done|].
        apply elem_of_app. right. by apply list_elem_of_singleton.
      * rewrite list_lookup_insert_ne by done. intros Ht.
        rewrite (inv_shared s Hs _ _ Ht).
        destruct (decide (t ∈ invoked s)).
        -- rewrite decide_True; [done|]. apply elem_of_app. by left.
        -- rewrite decide_False; [done|].
           intros [?|?%list_elem_of_singleton]%elem_of_app; congruence.
    + intros Hin. apply elem_of_insert_inv in Hin as [|Hin]; [done|]. by apply (inv_alive s Hs).
    + rewrite length_insert. intros H1.
      destruct (calling_insert_single (workers s) i _ AtLock H1 Hw) as [E1 E2].
      simpl in E1, E2. rewrite E2, (inv_single s Hs H1), E1. by rewrite app_nil_r.
  - (* terminates: excluded *)
    destruct (calling_fresh s i task Hs Hw) as (_ & pt & Hpt & Hr).
    by destruct (Hbad pt Hpt).
Qed.

Lemma consistent_push {A} (f : A → outcome) (args : A) (s : System) :
  consistent s → consistent (log_pushed (length (heap s))
    (set_m_tasks (m_tasks s ++ [length (heap s)])
       (set_heap (heap s ++ [PackagedTask (λ _, f args) None]) s))).
Proof.
  intros Hs. split; simpl; try apply Hs.
  - rewrite (inv_fifo s Hs). by rewrite <- app_assoc.
  - rewrite (inv_fresh s Hs), length_app. simpl.
    rewrite Nat.add_1_r, seq_S. done.
  - intros t pt Ht. apply lookup_app_Some in Ht as [Ht|[Hle Ht]].
    + by apply Hs.
    + apply list_lookup_singleton_Some in Ht as [Ht <-]. simpl.
      rewrite decide_False; [done|].
      intros Hin.
      assert (t ∈ pushed s) as Hp.
      { rewrite (inv_fifo s Hs). apply elem_of_app. left.
        rewrite (inv_popped s Hs). apply elem_of_app. by left. }
      rewrite (inv_fresh s Hs) in Hp. apply elem_of_seq in Hp. lia.
Qed.

Lemma consistent_step (e : event) (s s' : System) :
  consistent s → step e s = Some s' → consistent s'.
Proof.
  intros Hs. destruct e as [A f args| |i| |i]; simpl.
  - intros [= <-]. by apply consistent_push.
  - intros [= <-]. split; simpl; apply Hs.
  - unfold thread_join.
    destruct (m_threads s !! i) as [[]|]; try done.
    destruct (workers s !! i) as [[]|]; try done.
    intros [= <-]. split; simpl; try apply Hs.
    rewrite length_insert. apply Hs.
  - unfold wait, wait_seen. simpl. destruct (all_idle s); [|done].
    intros [= <-]. split; simpl; apply Hs.
  - intros Hw. eapply consistent_work_step; [done|]. by apply work_work_step.
Qed.

Lemma consistent_steps (s0 s : System) :
  consistent s0 → steps s0 s → consistent s.
Proof. induction 2; eauto using consistent_step. Qed.

Lemma steps_trans (s0 s1 s2 : System) :
  steps s0 s1 → steps s1 s2 → steps s0 s2.
Proof. induction 2; eauto using steps. Qed.

Lemma run_steps (es : list event) (s s' : System) :
  run es s = Some s' → steps s s'.
Proof.
  revert s. induction es as [|e es IH]; simpl; intros s.
  - intros [= <-]. constructor.
  - destruct (step e s) as [s1|] eqn:He; [|done].
    intros Hr. eapply steps_trans; [|by apply IH].
    eapply steps_step; [constructor | done].
Qed.

(** ** The idle counter, when it starts at zero *)

Lemma size_t_small (z : Z) : (0 ≤ z < 2 ^ 64)%Z → size_t z = z.
Proof. intros Hz. unfold size_t. by apply Z.mod_small. Qed.

Lemma waiting_replicate (n : nat) (w : worker) :
  w ≠ TaskWait → waiting (replicate n w) = 0.
Proof.
  intros Hw. unfold waiting. induction n as [|n IH]; simpl; [done|].
  rewrite filter_cons. by rewrite decide_False.
Qed.

Lemma idle_counted_init (n_threads : Z) : idle_counted (ThreadPool 0 n_threads).
Proof.
  split; simpl.
  - by rewrite waiting_replicate.
  - by rewrite !length_replicate.
  - unfold size. rewrite length_replicate.
    pose proof (Z.mod_pos_bound n_threads (2 ^ 64)) as Hb.
    unfold size_t. lia.
Qed.

Lemma idle_counted_work_step (i : nat) (s s' : System) :
  idle_counted s → work_step i s s' → idle_counted s'.
Proof.
  intros [Hc Hl Hn] Hstep. unfold size in Hn.
  assert (∀ w w', workers s !! i = Some w →
    ∃ r, waiting (workers s) = (if decide (w = TaskWait) then 1 else 0) + r
       ∧ waiting (<[i := w']> (workers s)) = (if decide (w' = TaskWait) then 1 else 0) + r
       ∧ S r ≤ length (m_threads s)) as Hcount.
  { intros w w' Hw.
    destruct (waiting_insert (workers s) i w w' Hw) as (r & Hr & Hr').
    destruct (waiting_insert (workers s) i w TaskWait Hw) as (r2 & Hr2 & Hr2').
    pose proof (waiting_le (<[i := TaskWait]> (workers s))) as Hle.
    rewrite length_insert, Hr2' in Hle. rewrite decide_True in Hle by done.
    exists r. repeat split; [done..|]. lia. }
  destruct Hstep as [w o Hw Hb Hp|w o Hw Hb Hstop Hq|w o task rest Hw Hb Hq
                    |task pt Hw Hpt Hst|task Hw Hbad].
  - destruct (Hcount w TaskWait Hw) as (r & Hr & Hr' & Hle).
    split; simpl; rewrite ?length_insert; try done.
    rewrite Hr', Hc, Hr. destruct Hb as [-> | ->]; simpl; [|done].
    rewrite size_t_small by lia. lia.
  - destruct (Hcount w Finished Hw) as (r & Hr & Hr' & Hle).
    split; simpl; rewrite ?length_insert; try done.
    rewrite Hr', Hc, Hr. destruct Hb as [-> | ->]; simpl.
    + rewrite (size_t_small (_ + 1)) by lia. rewrite size_t_small by lia. lia.
    + rewrite size_t_small by lia. lia.
  - destruct (Hcount w (Calling task) Hw) as (r & Hr & Hr' & Hle).
    split; simpl; rewrite ?length_insert; try done.
    rewrite Hr', Hc, Hr. destruct Hb as [-> | ->]; simpl.
    + rewrite (size_t_small (_ + 1)) by lia. rewrite size_t_small by lia. lia.
    + rewrite size_t_small by lia. lia.
  - destruct (Hcount _ AtLock Hw) as (r & Hr & Hr' & Hle).
    split; simpl; rewrite ?length_insert; try done.
    by rewrite Hr', Hc, Hr.
  - destruct (Hcount _ Terminate Hw) as (r & Hr & Hr' & Hle).
    split; simpl; rewrite ?length_insert; try done.
    by rewrite Hr', Hc, Hr.
Qed.

Lemma idle_counted_step (e : event) (s s' : System) :
  idle_counted s → step e s = Some s' → idle_counted s'.
Proof.
  intros Hs. destruct e as [A f args| |i| |i]; simpl.
  - intros [= <-]. split; simpl; apply Hs.
  - intros [= <-]. split; simpl; apply Hs.
  - unfold thread_join.
    destruct (m_threads s !! i) as [[]|]; try done.
    destruct (workers s !! i) as [[]|]; try done.
    intros [= <-]. split; simpl; unfold size; rewrite ?length_insert; apply Hs.
  - unfold wait, wait_seen. simpl. destruct (all_idle s); [|done].
    intros [= <-]. split; simpl; apply Hs.
  - intros Hw. eapply idle_counted_work_step; [done|]. by apply work_work_step.
Qed.

Lemma idle_counted_steps (s0 s : System) :
  idle_counted s0 → steps s0 s → idle_counted s.
Proof. induction 2; eauto using idle_counted_step. Qed.

(** When every worker is inside the wait, none is executing a task. *)
Lemma waiting_all (ws : list worker) :
  waiting ws = length ws → calling ws = [].
Proof.
  unfold waiting, calling. induction ws as [|w ws IH]; [done|].
  rewrite filter_cons. pose proof (length_filter (λ w, w = TaskWait) ws) as Hle.
  case_decide as Hw; simpl; intros Hlen; [|lia].
  subst w. simpl. apply IH. lia.
Qed.

(** ** What the steps leave alone *)

Lemma work_step_heap (i : nat) (s s' : System) (t : nat) (pt : packaged_task) :
  work_step i s s' → heap s !! t = Some pt →
  ∃ pt', heap s' !! t = Some pt' ∧ stored_task pt' = stored_task pt.
Proof.
  intros Hstep Ht.
  destruct Hstep as [w o Hw Hb Hp|w o Hw Hb Hstop Hq|w o task rest Hw Hb Hq
                    |task pt0 Hw Hpt Hst|task Hw Hbad]; simpl; eauto.
  destruct (decide (task = t)) as [->|Hne].
  - rewrite list_lookup_insert_eq by (by eapply lookup_lt_Some).
    eexists. split; [done|]. simpl. congruence.
  - rewrite list_lookup_insert_ne by done. eauto.
Qed.

Lemma step_heap (e : event) (s s' : System) (t : nat) (pt : packaged_task) :
  step e s = Some s' → heap s !! t = Some pt →
  ∃ pt', heap s' !! t = Some pt' ∧ stored_task pt' = stored_task pt.
Proof.
  intros He Ht. destruct e as [A f args| |i| |i]; simpl in He.
  - injection He as <-. simpl. exists pt. split; [|done]. by apply lookup_app_l_Some.
  - injection He as <-. simpl. eauto.
  - unfold thread_join in He.
    destruct (m_threads s !! i) as [[]|]; try done.
    destruct (workers s !! i) as [[]|]; try done.
    injection He as <-. simpl. eauto.
  - unfold wait, wait_seen in He. simpl in He. destruct (all_idle s); [|done].
    injection He as <-. simpl. eauto.
  - eapply work_step_heap; [|done]. by apply work_work_step.
Qed.

Lemma steps_heap (s s' : System) (t : nat) (pt : packaged_task) :
  steps s s' → heap s !! t = Some pt →
  ∃ pt', heap s' !! t = Some pt' ∧ stored_task pt' = stored_task pt.
Proof.
  intros Hsteps Ht. induction Hsteps as [|s1 e s2 _ IH He]; [eauto|].
  destruct IH as (pt1 & H1 & E1).
  destruct (step_heap e s1 s2 t pt1 He H1) as (pt2 & H2 & E2).
  exists pt2. split; [done|]. congruence.
Qed.

(** The stop flag is never reset, the vector of threads keeps its size and a
    joined thread stays joined. *)
Lemma step_threads (e : event) (s s' : System) :
  step e s = Some s' →
  (m_stop s = true → m_stop s' = true)
  ∧ length (m_threads s') = length (m_threads s)
  ∧ (∀ i, m_threads s !! i = Some NotJoinable → m_threads s' !! i = Some NotJoinable).
Proof.
  intros He. destruct e as [A f args| |i| |i]; simpl in He.
  - by injection He as <-.
  - by injection He as <-.
  - unfold thread_join in He.
    destruct (m_threads s !! i) as [[]|] eqn:Hi; try done.
    destruct (workers s !! i) as [[]|]; try done.
    injection He as <-. simpl. rewrite length_insert. repeat split; try done.
    intros j Hj. destruct (decide (i = j)) as [->|Hne]; [congruence|].
    by rewrite list_lookup_insert_ne.
  - unfold wait, wait_seen in He. simpl in He. destruct (all_idle s); [|done].
    by injection He as <-.
  - apply work_work_step in He.
    destruct He as [w o Hw Hb Hp|w o Hw Hb Hstop Hq|w o task rest Hw Hb Hq
                   |task pt0 Hw Hpt Hst|task Hw Hbad]; simpl; done.
Qed.

Lemma consistent_run (raw n_threads : Z) (es : list event) (s : System) :
  run es (ThreadPool raw n_threads) = Some s → consistent s.
Proof.
  intros Hr. eapply consistent_steps; [apply consistent_init | by eapply run_steps].
Qed.

(** ** Construction *)

Lemma ThreadPool_members (raw n_threads : Z) :
  let s := ThreadPool raw n_threads in
  m_threads s = replicate (Z.to_nat (size_t n_threads)) Joinable
  ∧ workers s = replicate (Z.to_nat (size_t n_threads)) AtLock
  ∧ m_stop s = false
  ∧ m_tasks s = []
  ∧ m_idle_count s = size_t raw.
Proof. done. Qed.

(** C9, as the code has it: the pool has exactly as many workers as the
    argument says, converted to [size_t]; the default argument is
    [std::thread::hardware_concurrency()] itself, with no minimum, so the
    pool has a worker exactly when that number is not zero. *)
Theorem ThreadPool_worker_count (raw n_threads hardware_concurrency : Z) :
  size (m_threads (ThreadPool raw n_threads)) = size_t n_threads
  ∧ length (workers (ThreadPool raw n_threads))
    = length (m_threads (ThreadPool raw n_threads))
  ∧ (1 ≤ length (m_threads (ThreadPool raw n_threads)) ↔ (1 ≤ size_t n_threads)%Z)
  ∧ ThreadPool_default hardware_concurrency raw = ThreadPool raw hardware_concurrency.
Proof.
  pose proof (Z.mod_pos_bound n_threads (2 ^ 64)) as Hb.
  unfold size. simpl. rewrite !length_replicate. unfold size_t in *.
  repeat split; try lia.
Qed.

(** ** Order of the tasks *)

(** C3: in every state that an execution reaches, the tasks popped so far,
    followed by the queue, are the tasks pushed so far, in the order of
    their pushes; with one worker the tasks whose call has returned, the
    task in execution and the queue are, in this order, the pushed
    tasks. *)
Theorem fifo_order (raw n_threads : Z) (es : list event) (s : System) :
  run es (ThreadPool raw n_threads) = Some s →
  pushed s = popped s ++ m_tasks s
  ∧ (size_t n_threads = 1%Z →
     pushed s = invoked s ++ calling (workers s) ++ m_tasks s).
Proof.
  intros Hr. pose proof (consistent_run _ _ _ _ Hr) as Hs.
  split; [apply Hs|]. intros Hn.
  assert (length (workers s) = 1) as H1.
  { rewrite (inv_threads s Hs).
    apply run_steps in Hr.
    assert (length (m_threads s) = length (m_threads (ThreadPool raw n_threads))) as ->.
    { clear Hs. induction Hr as [|s1 e s2 _ IH He]; [done|].
      destruct (step_threads e s1 s2 He) as (_ & -> & _). done. }
    simpl. rewrite length_replicate, Hn. done. }
  rewrite (inv_fifo s Hs), (inv_single s Hs H1). by rewrite <- app_assoc.
Qed.

(** ** Results of the tasks *)

Lemma future_get_invoked (s : System) (t : nat) (pt : packaged_task) :
  consistent s → heap s !! t = Some pt → t ∈ invoked s →
  future_get t s = surfaces (stored_task pt ()).
Proof.
  intros Hs Ht Hin. unfold future_get. rewrite Ht.
  rewrite (inv_shared s Hs _ _ Ht), decide_True by done.
  by destruct (stored_task pt ()).
Qed.

(** C4: when a worker calls a task, the call returns whatever the task does:
    the value or the failure of the task is in the shared state, [get()]
    gives that value or rethrows that failure, and the worker is back at the
    top of its loop, ready for its next step; no worker is ever terminated by
    an exception. *)
Theorem task_outcome_in_future
    (raw n_threads : Z) (es : list event) (s : System) (i task : nat) :
  run es (ThreadPool raw n_threads) = Some s →
  workers s !! i = Some (Calling task) →
  ∃ pt s',
    heap s !! task = Some pt
    ∧ work i s = Some s'
    ∧ future_get task s' = surfaces (stored_task pt ())
    ∧ workers s' !! i = Some AtLock
    ∧ is_Some (work i s')
    ∧ Terminate ∉ workers s'.
Proof.
  intros Hr Hw. pose proof (consistent_run _ _ _ _ Hr) as Hs.
  destruct (calling_fresh s i task Hs Hw) as (Hni & pt & Hpt & Hst).
  assert (work i s = Some (work_call i task s)) as Hwork.
  { unfold work. by rewrite Hw. }
  pose proof (work_work_step _ _ _ Hwork) as Hstep.
  pose proof (consistent_work_step _ _ _ Hs Hstep) as Hs'.
  exists pt, (work_call i task s). split; [done|]. split; [done|].
  assert (i < length (workers s)) as Hi by (by eapply lookup_lt_Some).
  assert (task < length (heap s)) as Ht by (by eapply lookup_lt_Some).
  unfold work_call, packaged_task_call in *. rewrite Hpt, Hst in *. simpl in *.
  assert (workers (log_invoked task (set_workers (<[i := AtLock]> (workers s))
            (set_heap (<[task := PackagedTask (stored_task pt) (Some (stored_task pt ()))]>
                         (heap s)) s))) !! i = Some AtLock) as Hw'.
  { simpl. by rewrite list_lookup_insert_eq. }
  repeat split.
  - unfold future_get. simpl. rewrite list_lookup_insert_eq by done. simpl.
    by destruct (stored_task pt ()).
  - done.
  - unfold work. rewrite Hw'. eauto.
  - apply Hs'.
Qed.

(** C10: [push] binds the arguments to the callable itself, and once the
    task has been executed the future gives what [f] gives on these
    arguments. *)
Theorem push_binds_arguments
    {A : Type} (f : A → outcome) (args : A)
    (raw n_threads : Z) (es : list event) (s : System) :
  run es (ThreadPool raw n_threads) = Some s →
  ∃ future s1,
    push f args s = Done (future, s1)
    ∧ (∃ pt, heap s1 !! future = Some pt ∧ stored_task pt () = f args)
    ∧ ∀ s2, steps s1 s2 → future ∈ invoked s2 →
        future_get future s2 = surfaces (f args).
Proof.
  intros Hr. pose proof (consistent_run _ _ _ _ Hr) as Hs.
  pose proof (consistent_push f args s Hs) as Hs1.
  set (s1 := log_pushed _ _) in Hs1.
  exists (length (heap s)), s1. split; [reflexivity|].
  assert (heap s1 !! length (heap s) = Some (PackagedTask (λ _, f args) None)) as Hpt.
  { simpl. rewrite lookup_app_r by done. by rewrite Nat.sub_diag. }
  split; [eauto|].
  intros s2 Hsteps Hin.
  destruct (steps_heap _ _ _ _ Hsteps Hpt) as (pt2 & Hpt2 & Est).
  assert (consistent s2) as Hs2 by (by eapply consistent_steps).
  rewrite (future_get_invoked s2 _ pt2 Hs2 Hpt2 Hin). by rewrite Est.
Qed.

(** ** Shutdown: the workers drain the queue *)

Lemma work_step_workers (i : nat) (s s' : System) :
  work_step i s s' →
  ∃ w w', workers s !! i = Some w ∧ w ≠ Finished
        ∧ workers s' = <[i := w']> (workers s)
        ∧ (w' = Finished → m_stop s = true ∧ m_tasks s = [] ∧ m_tasks s' = []).
Proof.
  intros Hstep.
  destruct Hstep as [w o Hw Hb Hp|w o Hw Hb Hstop Hq|w o task rest Hw Hb Hq
                    |task pt0 Hw Hpt Hst|task Hw Hbad]; simpl.
  - exists w, TaskWait. by destruct Hb as [-> | ->].
  - exists w, Finished. by destruct Hb as [-> | ->].
  - exists w, (Calling task). by destruct Hb as [-> | ->].
  - by exists (Calling task), AtLock.
  - by exists (Calling task), Terminate.
Qed.

(** A thread returns from [work()] only in a step of its own that sees the
    stop flag set and the queue empty. *)
Lemma exit_condition (e : event) (s s' : System) (i : nat) (w : worker) :
  step e s = Some s' →
  workers s !! i = Some w → w ≠ Finished → workers s' !! i = Some Finished →
  e = EWork i ∧ m_stop s = true ∧ m_tasks s = [].
Proof.
  intros He Hw Hne Hw'. destruct e as [A f args| |j| |j]; simpl in He.
  - injection He as <-. simpl in Hw'. congruence.
  - injection He as <-. simpl in Hw'. congruence.
  - unfold thread_join in He.
    destruct (m_threads s !! j) as [[]|]; try done.
    destruct (workers s !! j) as [[]|]; try done.
    injection He as <-. simpl in Hw'. congruence.
  - unfold wait, wait_seen in He. simpl in He. destruct (all_idle s); [|done].
    injection He as <-. simpl in Hw'. congruence.
  - apply work_work_step, work_step_workers in He
      as (w0 & w' & Hw0 & Hne0 & Hws & Hfin).
    rewrite Hws in Hw'. destruct (decide (j = i)) as [->|Hji].
    + rewrite list_lookup_insert_eq in Hw' by (by eapply lookup_lt_Some).
      injection Hw' as ->. destruct Hfin as (? & ? & ?); done.
    + rewrite list_lookup_insert_ne in Hw' by done. congruence.
Qed.

Lemma weight_insert (ws : list worker) (i : nat) (w w' : worker) :
  ws !! i = Some w →
  ∃ r, sum_list_with weight ws = weight w + r
     ∧ sum_list_with weight (<[i := w']> ws) = weight w' + r.
Proof.
  intros Hi. destruct (insert_split ws i w w' Hi) as (l1 & l2 & -> & ->).
  exists (sum_list_with weight l1 + sum_list_with weight l2).
  rewrite !sum_list_with_app. simpl. lia.
Qed.

Lemma work_step_remaining (i : nat) (s s' : System) :
  m_stop s = true → work_step i s s' → remaining s' < remaining s.
Proof.
  intros Hstop Hstep. unfold remaining.
  destruct Hstep as [w o Hw Hb Hp|w o Hw Hb _ Hq|w o task rest Hw Hb Hq
                    |task pt0 Hw Hpt Hst|task Hw Hbad]; simpl.
  - unfold task_or_stop in Hp. rewrite Hstop in Hp.
    by destruct (bool_decide _).
  - destruct (weight_insert (workers s) i w Finished Hw) as (r & -> & ->).
    rewrite Hq. destruct Hb as [-> | ->]; simpl; lia.
  - destruct (weight_insert (workers s) i w (Calling task) Hw) as (r & -> & ->).
    rewrite Hq. destruct Hb as [-> | ->]; simpl; lia.
  - destruct (weight_insert (workers s) i _ AtLock Hw) as (r & -> & ->).
    simpl. lia.
  - destruct (weight_insert (workers s) i _ Terminate Hw) as (r & -> & ->).
    simpl. lia.
Qed.

Lemma work_step_left_empty (i : nat) (s s' : System) :
  work_step i s s' → left_empty s'.
Proof.
  intros (w & w' & Hw & Hne & Hws & Hfin)%work_step_workers Hall.
  apply Hfin. rewrite Hws in Hall.
  eapply (Forall_lookup_1 _ _ i) in Hall; [done|].
  apply list_lookup_insert_eq. by eapply lookup_lt_Some.
Qed.

Lemma drain_spec (fuel : nat) (s : System) :
  consistent s → m_stop s = true → left_empty s → remaining s < fuel →
  steps s (drain fuel s)
  ∧ Forall (λ w, w = Finished) (workers (drain fuel s))
  ∧ m_tasks (drain fuel s) = []
  ∧ pushed (drain fuel s) = pushed s.
Proof.
  revert s. induction fuel as [|fuel IH]; intros s Hs Hstop Hempty Hfuel; [lia|].
  simpl. destruct (list_find running (workers s)) as [[i w]|] eqn:Hfind.
  - apply list_find_Some in Hfind as (Hw & [Hnf Hnt] & _).
    assert (∃ s', work i s = Some s') as [s' Hwork].
    { unfold work. rewrite Hw. destruct w; try done; eauto. }
    rewrite Hwork. pose proof (work_work_step _ _ _ Hwork) as Hstep.
    destruct (IH s') as (Hsteps & Hall & Hq & Hpushed).
    + by eapply consistent_work_step.
    + destruct (step_threads (EWork i) s s' Hwork) as (Hst & _). by apply Hst.
    + by eapply work_step_left_empty.
    + pose proof (work_step_remaining i s s' Hstop Hstep). lia.
    + repeat split; try done.
      * eapply steps_trans; [|exact Hsteps].
        eapply (steps_step _ _ (EWork i)); [constructor | done].
      * rewrite Hpushed. clear -Hstep. by destruct Hstep.
  - apply list_find_None in Hfind.
    assert (Forall (λ w, w = Finished) (workers s)) as Hall.
    { apply Forall_forall. intros w Hin.
      rewrite Forall_forall in Hfind. specialize (Hfind w Hin).
      destruct (decide (w = Finished)) as [|Hnf]; [done|].
      destruct Hfind. split; [done|]. intros ->. by apply (inv_alive s Hs). }
    repeat split; try done; [constructor | by apply Hempty].
Qed.

(** With the queue empty and no task in execution, every pushed task has
    been executed and its future is ready. *)
Lemma settled (s : System) (t : nat) :
  consistent s → m_tasks s = [] → calling (workers s) = [] → t ∈ pushed s →
  ready t s.
Proof.
  intros Hs Hq Hc Hin.
  assert (t ∈ invoked s) as Hinv.
  { rewrite (inv_fifo s Hs), Hq, app_nil_r, (inv_popped s Hs), Hc, app_nil_r in Hin.
    done. }
  split; [done|].
  rewrite (inv_fresh s Hs) in Hin. apply elem_of_seq in Hin.
  destruct (lookup_lt_is_Some_2 (heap s) t) as [pt Hpt]; [lia|].
  exists pt. split; [done|]. by apply future_get_invoked.
Qed.

Lemma calling_finished (ws : list worker) :
  Forall (λ w, w = Finished) ws → calling ws = [].
Proof. unfold calling. induction 1 as [|w ws -> _ IH]; simpl; done. Qed.

Lemma work_takes_head (i : nat) (w : worker) (task : nat) (rest : list nat) (s : System) :
  m_tasks s = task :: rest → workers s !! i = Some w → before_wait w →
  ∃ s', work i s = Some s'
      ∧ workers s' !! i = Some (Calling task) ∧ m_tasks s' = rest.
Proof.
  intros Hq Hw Hb.
  assert (i < length (workers s)) as Hi by (by eapply lookup_lt_Some).
  unfold work. rewrite Hw.
  destruct Hb as [-> | ->]; eexists; (split; [reflexivity|]).
  - unfold work_lock, work_take, task_or_stop.
    destruct (_ =? _)%Z; simpl; rewrite Hq; simpl;
      rewrite andb_false_r; simpl; by rewrite list_lookup_insert_eq.
  - unfold work_wake, work_take, task_or_stop. simpl. rewrite Hq. simpl.
    rewrite andb_false_r. simpl. by rewrite list_lookup_insert_eq.
Qed.

Lemma workers_run (sched : list nat) (s s' : System) :
  consistent s → m_stop s = true → left_empty s →
  run (EWork <$> sched) s = Some s' →
  length sched + remaining s' ≤ remaining s
  ∧ consistent s' ∧ left_empty s' ∧ pushed s' = pushed s.
Proof.
  revert s. induction sched as [|i sched IH]; simpl; intros s Hs Hstop Hempty.
  - intros [= <-]. split; [lia|]. split; [done|]. by split.
  - destruct (work i s) as [s1|] eqn:Hwork; [|done]. intros Hr.
    pose proof (work_work_step _ _ _ Hwork) as Hstep.
    pose proof (work_step_remaining i s s1 Hstop Hstep) as Hlt.
    destruct (IH s1) as (Hlen & Hs' & Hempty' & Hp); try done.
    + by eapply consistent_work_step.
    + destruct (step_threads (EWork i) s s1 Hwork) as (Hst & _). by apply Hst.
    + by eapply work_step_left_empty.
    + split; [lia|]. split; [done|]. split; [done|].
      rewrite Hp. clear -Hstep. by destruct Hstep.
Qed.

(** C2: a worker returns from its loop only when it sees the stop flag set
    and the queue empty, and by then every pushed task has been popped; with
    the flag set and a task queued, a worker that passes the wait pops the
    head of the queue.  With the flag set (the waiting workers are woken by
    the [notify_all] of line 42), every schedule of the workers is finite,
    and when all of them have returned the queue is empty and every pushed
    task has been executed; [drain] is such a schedule. *)
Theorem graceful_drain (raw n_threads : Z) (es : list event) (s : System) :
  run es (ThreadPool raw n_threads) = Some s →
  (∀ e s' i w,
     step e s = Some s' →
     workers s !! i = Some w → w ≠ Finished → workers s' !! i = Some Finished →
     m_stop s = true ∧ m_tasks s = [] ∧ pushed s = popped s)
  ∧ (∀ i w task rest,
       m_stop s = true → m_tasks s = task :: rest →
       workers s !! i = Some w → before_wait w →
       ∃ s', work i s = Some s'
           ∧ workers s' !! i = Some (Calling task) ∧ m_tasks s' = rest)
  ∧ (m_stop s = true → left_empty s →
     (∀ sched s',
        run (EWork <$> sched) s = Some s' →
        length sched ≤ remaining s
        ∧ (Forall (λ w, w = Finished) (workers s') →
           m_tasks s' = [] ∧ ∀ t, t ∈ pushed s → ready t s'))
     ∧ let s' := drain (S (remaining s)) s in
       steps s s'
       ∧ Forall (λ w, w = Finished) (workers s')
       ∧ m_tasks s' = []
       ∧ ∀ t, t ∈ pushed s → ready t s').
Proof.
  intros Hr. pose proof (consistent_run _ _ _ _ Hr) as Hs.
  split; [|split].
  - intros e s' i w He Hw Hne Hw'.
    destruct (exit_condition e s s' i w He Hw Hne Hw') as (_ & Hstop & Hq).
    repeat split; try done. by rewrite (inv_fifo s Hs), Hq, app_nil_r.
  - intros i w task rest _. apply work_takes_head.
  - intros Hstop Hempty. split.
    + intros sched s' Hsched.
      destruct (workers_run sched s s' Hs Hstop Hempty Hsched)
        as (Hlen & Hs' & Hempty' & Hp).
      split; [lia|]. intros Hall. split; [by apply Hempty'|].
      intros t Ht. rewrite <- Hp in Ht.
      eapply settled; eauto using calling_finished.
    + destruct (drain_spec (S (remaining s)) s Hs Hstop Hempty)
        as (Hsteps & Hall & Hq & Hp); [lia|].
      simpl. split; [done|]. split; [done|]. split; [done|].
      intros t Ht. rewrite <- Hp in Ht.
      eapply settled; eauto using consistent_steps, calling_finished.
Qed.

(** ** join, a second time *)

Lemma run_threads (es : list event) (s s' : System) :
  run es s = Some s' →
  (m_stop s = true → m_stop s' = true)
  ∧ length (m_threads s') = length (m_threads s)
  ∧ (∀ i, m_threads s !! i = Some NotJoinable → m_threads s' !! i = Some NotJoinable).
Proof.
  revert s. induction es as [|e es IH]; simpl; intros s.
  - by intros [= <-].
  - destruct (step e s) as [s1|] eqn:He; [|done]. intros Hr.
    destruct (step_threads e s s1 He) as (H1 & H2 & H3).
    destruct (IH s1 Hr) as (H4 & H5 & H6).
    repeat split; [auto | congruence | auto].
Qed.

Lemma run_stopped (es : list event) (s s' : System) :
  run es s = Some s' → EJoinStop ∈ es → m_stop s' = true.
Proof.
  revert s. induction es as [|e es IH]; simpl; intros s Hr Hin.
  - by apply elem_of_nil in Hin.
  - destruct (step e s) as [s1|] eqn:He; [|done].
    apply elem_of_cons in Hin as [<-|Hin]; [|by eapply IH].
    simpl in He. injection He as <-.
    by apply (run_threads es (join_stop s) s' Hr).
Qed.

Lemma run_joined (es : list event) (s s' : System) (i : nat) :
  run es s = Some s' → EJoinThread i ∈ es → i < length (m_threads s) →
  m_threads s' !! i = Some NotJoinable.
Proof.
  revert s. induction es as [|e es IH]; simpl; intros s Hr Hin Hi.
  - by apply elem_of_nil in Hin.
  - destruct (step e s) as [s1|] eqn:He; [|done].
    destruct (step_threads e s s1 He) as (_ & Hlen & _).
    apply elem_of_cons in Hin as [<-|Hin]; [|eapply IH; eauto; lia].
    apply (run_threads es s1 s' Hr).
    simpl in He. unfold thread_join in He.
    destruct (m_threads s !! i) as [[]|]; try done.
    destruct (workers s !! i) as [[]|]; try done.
    injection He as <-. simpl. by apply list_lookup_insert_eq.
Qed.

Lemma join_stop_again (s : System) : m_stop s = true → join_stop s = s.
Proof. destruct s. simpl. by intros ->. Qed.

(** C7, as the code has it: after a completed call of [join()] the stop flag
    is set and no thread of [m_threads] is joinable; a second call sets the
    flag again, which changes nothing, and then, unless the pool has no
    worker at all, throws [std::system_error] from the first [t.join()]
    instead of returning. *)
Theorem join_again (es : list event) (s0 s : System) :
  run es s0 = Some s →
  EJoinStop ∈ es →
  (∀ i, i < length (m_threads s0) → EJoinThread i ∈ es) →
  m_stop s = true
  ∧ Forall (λ t, t = NotJoinable) (m_threads s)
  ∧ join_stop s = s
  ∧ join s = if decide (m_threads s = [])
             then Done s
             else Throw system_error_invalid_argument.
Proof.
  intros Hr Hstop Hjoined.
  pose proof (run_stopped es s0 s Hr Hstop) as Hst.
  destruct (run_threads es s0 s Hr) as (_ & Hlen & _).
  assert (∀ i, i < length (m_threads s) → m_threads s !! i = Some NotJoinable) as Hall.
  { intros i Hi. rewrite Hlen in Hi. eapply run_joined; eauto. }
  split; [done|]. split.
  { apply Forall_lookup. intros i t Hit.
    pose proof (lookup_lt_Some _ _ _ Hit) as Hi. specialize (Hall i Hi). congruence. }
  split; [by apply join_stop_again|].
  unfold join. rewrite (join_stop_again s Hst).
  destruct (m_threads s) as [|t ts] eqn:Hts; simpl; [done|].
  unfold thread_join. rewrite Hts. simpl.
  specialize (Hall 0). simpl in Hall.
  assert (t = NotJoinable) as -> by (by injection (Hall ltac:(lia))).
  done.
Qed.

(** ** push, after join *)

Lemma step_all_finished (e : event) (s s' : System) :
  Forall (λ w, w = Finished) (workers s) → step e s = Some s' →
  Forall (λ w, w = Finished) (workers s')
  ∧ (∀ t pt, heap s !! t = Some pt → heap s' !! t = Some pt)
  ∧ (∀ t, t ∈ m_tasks s → t ∈ m_tasks s').
Proof.
  intros Hall He. destruct e as [A f args| |i| |i]; simpl in He.
  - injection He as <-. simpl. repeat split; [done| |].
    + intros t pt Ht. by apply lookup_app_l_Some.
    + intros t Ht. apply elem_of_app. by left.
  - by injection He as <-.
  - unfold thread_join in He.
    destruct (m_threads s !! i) as [[]|]; try done.
    destruct (workers s !! i) as [[]|]; try done.
    by injection He as <-.
  - unfold wait, wait_seen in He. simpl in He. destruct (all_idle s); [|done].
    by injection He as <-.
  - unfold work in He. destruct (workers s !! i) as [w|] eqn:Hw; [|done].
    rewrite (Forall_lookup_1 _ _ _ _ Hall Hw) in He. done.
Qed.

(** C8, as the code has it: [push] has no test of the stop flag.  With the
    flag set it does what it always does: it appends the task to the queue
    and returns the future.  When all the workers have returned, the task
    stays in the queue and its future is never ready. *)
Theorem push_after_join {A : Type} (f : A → outcome) (args : A) (s : System) :
  m_stop s = true →
  ∃ future s1,
    push f args s = Done (future, s1)
    ∧ m_tasks s1 = m_tasks s ++ [future]
    ∧ m_stop s1 = true
    ∧ (Forall (λ w, w = Finished) (workers s) →
       ∀ s2, steps s1 s2 →
         future ∈ m_tasks s2 ∧ future_get future s2 = Blocked).
Proof.
  intros Hstop.
  set (s1 := log_pushed (length (heap s))
               (set_m_tasks (m_tasks s ++ [length (heap s)])
                  (set_heap (heap s ++ [PackagedTask (λ _, f args) None]) s))).
  exists (length (heap s)), s1. split; [reflexivity|]. split; [done|]. split; [done|].
  intros Hall s2 Hsteps.
  assert (Forall (λ w, w = Finished) (workers s2)
          ∧ heap s2 !! length (heap s) = Some (PackagedTask (λ _, f args) None)
          ∧ length (heap s) ∈ m_tasks s2) as (_ & Hpt & Hin).
  { induction Hsteps as [|s' e s'' _ IH He].
    - split; [done|]. simpl. split.
      + rewrite lookup_app_r by done. by rewrite Nat.sub_diag.
      + apply elem_of_app. right. by apply list_elem_of_singleton.
    - destruct IH as (H1 & H2 & H3).
      destruct (step_all_finished e s' s'' H1 He) as (H4 & H5 & H6). auto. }
  split; [done|]. unfold future_get. by rewrite Hpt.
Qed.

(** ** wait *)

(** [cv.wait(lock, pred)] returns in the first of the states it sees in which
    the predicate holds, and in no other. *)
Lemma cv_wait_first (pred : System → bool) (seen : list System) (s : System) :
  cv_wait pred seen = Some s →
  ∃ before after,
    seen = before ++ s :: after
    ∧ Forall (λ x, pred x = false) before
    ∧ pred s = true.
Proof.
  induction seen as [|x seen IH]; simpl; [done|].
  destruct (pred x) eqn:Hx.
  - intros [= <-]. by exists [], seen.
  - intros (before & after & -> & Hb & Hs)%IH.
    exists (x :: before), after. repeat split; [|done]. by constructor.
Qed.

Lemma wait_seen_all_idle (seen : list System) (s' : System) :
  wait_seen seen = Done s' →
  ∃ s, s ∈ seen ∧ m_tasks s = [] ∧ m_idle_count s = size (m_threads s)
     ∧ s' = print (wait_line (m_idle_count s) (size (m_threads s))) s.
Proof.
  unfold wait_seen. destruct (cv_wait all_idle seen) as [s|] eqn:Hw; [|done].
  intros [= <-]. exists s.
  apply cv_wait_first in Hw as (before & after & -> & _ & Hp).
  unfold all_idle in Hp. apply andb_true_iff in Hp as [Hq Hc].
  apply bool_decide_eq_true in Hq. apply Z.eqb_eq in Hc.
  repeat split; try done. apply elem_of_app. right. by left.
Qed.

Lemma idle_counted_run (n_threads : Z) (es : list event) (s : System) :
  run es (ThreadPool 0 n_threads) = Some s → idle_counted s.
Proof.
  intros Hr. eapply idle_counted_steps; [apply idle_counted_init | by eapply run_steps].
Qed.

(** For a pool whose [m_idle_count] started at zero: the counter is the
    number of workers inside the wait of line 66. *)
Lemma idle_invariant_from_zero (n_threads : Z) (es : list event) (s : System) :
  run es (ThreadPool 0 n_threads) = Some s →
  (0 ≤ m_idle_count s ≤ size (m_threads s))%Z
  ∧ (m_idle_count s = size (m_threads s) → calling (workers s) = []).
Proof.
  intros Hr. destruct (idle_counted_run _ _ _ Hr) as [Hc Hl Hn].
  pose proof (waiting_le (workers s)) as Hle. unfold size in *.
  split; [lia|]. intros Heq. apply waiting_all. lia.
Qed.

(** For a pool whose [m_idle_count] started at zero: [wait()] returns only
    with the queue empty, no task in execution and every future ready. *)
Lemma wait_from_zero (n_threads : Z) (es : list event) (s s' : System) :
  run es (ThreadPool 0 n_threads) = Some s → wait s = Done s' →
  m_tasks s = [] ∧ calling (workers s) = []
  ∧ ∀ t, t ∈ pushed s → ready t s.
Proof.
  intros Hr Hwait.
  apply wait_seen_all_idle in Hwait as (s1 & ->%list_elem_of_singleton & Hq & Hc & _).
  destruct (idle_invariant_from_zero _ _ _ Hr) as [_ Hcall].
  specialize (Hcall Hc). split; [done|]. split; [done|].
  intros t Ht. eapply settled; eauto using consistent_run.
Qed.

(** ** Further properties of the pool *)

Lemma run_app (es es' : list event) (s : System) :
  run (es ++ es') s = run es s ≫= run es'.
Proof.
  revert s. induction es as [|e es IH]; simpl; intros s; [done|].
  destruct (step e s); simpl; [apply IH | done].
Qed.

Lemma pool_size (raw n_threads : Z) (es : list event) (s : System) :
  run es (ThreadPool raw n_threads) = Some s →
  length (m_threads s) = Z.to_nat (size_t n_threads)
  ∧ length (workers s) = Z.to_nat (size_t n_threads).
Proof.
  intros Hr. pose proof (consistent_run _ _ _ _ Hr) as Hs.
  destruct (run_threads _ _ _ Hr) as (_ & Hlen & _).
  rewrite (inv_threads s Hs), Hlen. simpl. by rewrite length_replicate.
Qed.

(** X1: the pool is never resized: in every state that an execution reaches
    the vector of threads has the size given to the constructor, and there
    is one worker per thread. *)
Theorem pool_size_fixed (raw n_threads : Z) (es : list event) (s : System) :
  run es (ThreadPool raw n_threads) = Some s →
  size (m_threads s) = size_t n_threads
  ∧ length (workers s) = length (m_threads s).
Proof.
  intros Hr. destruct (pool_size _ _ _ _ Hr) as [Ht Hw].
  pose proof (Z.mod_pos_bound n_threads (2 ^ 64)) as Hb.
  unfold size. rewrite Hw, Ht. unfold size_t in *. split; [lia | done].
Qed.

(** X2: every pushed task is in exactly one place: its call has returned, or
    a worker is executing it, or it is in the queue; no task is in two of
    these places or twice in one. *)
Theorem exactly_once (raw n_threads : Z) (es : list event) (s : System) :
  run es (ThreadPool raw n_threads) = Some s →
  invoked s ++ calling (workers s) ++ m_tasks s ≡ₚ pushed s
  ∧ NoDup (invoked s ++ calling (workers s) ++ m_tasks s).
Proof.
  intros Hr. pose proof (consistent_run _ _ _ _ Hr) as Hs.
  assert (invoked s ++ calling (workers s) ++ m_tasks s ≡ₚ pushed s) as Hp.
  { rewrite (inv_fifo s Hs), (inv_popped s Hs). by rewrite <- app_assoc. }
  split; [done|]. rewrite Hp, (inv_fresh s Hs). apply NoDup_seq.
Qed.

(** The history of returned calls only grows. *)
Lemma step_invoked (e : event) (s s' : System) (t : nat) :
  step e s = Some s' → t ∈ invoked s → t ∈ invoked s'.
Proof.
  intros He Ht. destruct e as [A f args| |i| |i]; simpl in He.
  - by injection He as <-.
  - by injection He as <-.
  - unfold thread_join in He.
    destruct (m_threads s !! i) as [[]|]; try done.
    destruct (workers s !! i) as [[]|]; try done.
    by injection He as <-.
  - unfold wait, wait_seen in He. simpl in He. destruct (all_idle s); [|done].
    by injection He as <-.
  - apply work_work_step in He.
    destruct He as [w o Hw Hb Hp|w o Hw Hb Hstop Hq|w o task rest Hw Hb Hq
                   |task pt0 Hw Hpt Hst|task Hw Hbad]; simpl; try done.
    apply elem_of_app. by left.
Qed.

Lemma steps_invoked (s s' : System) (t : nat) :
  steps s s' → t ∈ invoked s → t ∈ invoked s'.
Proof. induction 1; eauto using step_invoked. Qed.

(** X3: the shared state of a task is written once: from the moment [get()]
    on a future does not block, it gives the same value or the same failure
    in every later state. *)
Theorem future_settled
    (raw n_threads : Z) (es es' : list event) (s s' : System) (t : nat) :
  run es (ThreadPool raw n_threads) = Some s →
  run es' s = Some s' →
  future_get t s ≠ Blocked →
  future_get t s' = future_get t s.
Proof.
  intros Hr Hr' Hget. pose proof (consistent_run _ _ _ _ Hr) as Hs.
  pose proof (run_steps _ _ _ Hr') as Hsteps.
  pose proof (consistent_steps _ _ Hs Hsteps) as Hs'.
  unfold future_get in Hget |- *.
  destruct (heap s !! t) as [pt|] eqn:Hpt; [|done].
  pose proof (inv_shared s Hs t pt Hpt) as Hsh.
  destruct (decide (t ∈ invoked s)) as [Hin|Hnin];
    [|rewrite Hsh in Hget; done].
  destruct (steps_heap _ _ _ _ Hsteps Hpt) as (pt' & Hpt' & Est).
  rewrite Hpt', (inv_shared s' Hs' t pt' Hpt'), Hsh, Est.
  rewrite decide_True by (by eapply steps_invoked). done.
Qed.

(** X4: [push] returns a future that no earlier call returned; this future
    is not ready, and the call changes what no other future gives. *)
Theorem push_fresh_future
    {A : Type} (f : A → outcome) (args : A)
    (raw n_threads : Z) (es : list event) (s : System) :
  run es (ThreadPool raw n_threads) = Some s →
  ∃ future s1,
    push f args s = Done (future, s1)
    ∧ (future ∉ pushed s)
    ∧ pushed s1 = pushed s ++ [future]
    ∧ future_get future s1 = Blocked
    ∧ ∀ t, t ≠ future → future_get t s1 = future_get t s.
Proof.
  intros Hr. pose proof (consistent_run _ _ _ _ Hr) as Hs.
  eexists _, _. split; [reflexivity|]. split; [|split; [done|split]].
  - rewrite (inv_fresh s Hs). intros Hin%elem_of_seq. lia.
  - unfold future_get. simpl. rewrite lookup_app_r by done.
    by rewrite Nat.sub_diag.
  - intros t Ht. unfold future_get. simpl.
    destruct (decide (t < length (heap s))) as [Hlt|Hge].
    + by rewrite lookup_app_l.
    + rewrite (lookup_ge_None_2 (heap s)) by lia.
      rewrite lookup_app_r by lia.
      destruct (t - length (heap s)) as [|k] eqn:Hk; [lia|]. done.
Qed.

(** ** The idle counter, whatever it starts from *)

Lemma size_t_add_l (a b : Z) : size_t (size_t a + b) = size_t (a + b).
Proof. unfold size_t. apply Zplus_mod_idemp_l. Qed.

Lemma size_t_sub_l (a b : Z) : size_t (size_t a - b) = size_t (a - b).
Proof. unfold size_t. apply Zminus_mod_idemp_l. Qed.

Lemma size_t_idem (a : Z) : size_t (size_t a) = size_t a.
Proof. unfold size_t. apply Zmod_mod. Qed.

Lemma raw_counted_work_step (raw : Z) (i : nat) (s s' : System) :
  m_idle_count s = size_t (raw + Z.of_nat (waiting (workers s))) →
  work_step i s s' →
  m_idle_count s' = size_t (raw + Z.of_nat (waiting (workers s'))).
Proof.
  intros Hc Hstep.
  destruct Hstep as [w o Hw Hb Hp|w o Hw Hb Hstop Hq|w o task rest Hw Hb Hq
                    |task pt Hw Hpt Hst|task Hw Hbad]; simpl.
  - destruct (waiting_insert (workers s) i w TaskWait Hw) as (r & Hr & Hr').
    rewrite Hr', Hc, Hr. destruct Hb as [-> | ->]; simpl; [|done].
    rewrite size_t_add_l. f_equal. lia.
  - destruct (waiting_insert (workers s) i w Finished Hw) as (r & Hr & Hr').
    rewrite Hr', Hc, Hr. destruct Hb as [-> | ->]; simpl.
    + rewrite size_t_add_l, size_t_sub_l. f_equal. lia.
    + rewrite size_t_sub_l. f_equal. lia.
  - destruct (waiting_insert (workers s) i w (Calling task) Hw) as (r & Hr & Hr').
    rewrite Hr', Hc, Hr. destruct Hb as [-> | ->]; simpl.
    + rewrite size_t_add_l, size_t_sub_l. f_equal. lia.
    + rewrite size_t_sub_l. f_equal. lia.
  - destruct (waiting_insert (workers s) i _ AtLock Hw) as (r & Hr & Hr').
    by rewrite Hr', Hc, Hr.
  - destruct (waiting_insert (workers s) i _ Terminate Hw) as (r & Hr & Hr').
    by rewrite Hr', Hc, Hr.
Qed.

Lemma raw_counted_step (raw : Z) (e : event) (s s' : System) :
  m_idle_count s = size_t (raw + Z.of_nat (waiting (workers s))) →
  step e s = Some s' →
  m_idle_count s' = size_t (raw + Z.of_nat (waiting (workers s'))).
Proof.
  intros Hc. destruct e as [A f args| |i| |i]; simpl.
  - by intros [= <-].
  - by intros [= <-].
  - unfold thread_join.
    destruct (m_threads s !! i) as [[]|]; try done.
    destruct (workers s !! i) as [[]|]; try done.
    by intros [= <-].
  - unfold wait, wait_seen. simpl. destruct (all_idle s); [|done].
    by intros [= <-].
  - intros Hw. eapply raw_counted_work_step; [done|]. by apply work_work_step.
Qed.

Lemma raw_counted_run (raw n_threads : Z) (es : list event) (s : System) :
  run es (ThreadPool raw n_threads) = Some s →
  m_idle_count s = size_t (raw + Z.of_nat (waiting (workers s))).
Proof.
  intros Hr%run_steps. induction Hr as [|s1 e s2 _ IH He].
  - simpl. rewrite waiting_replicate by done. f_equal. lia.
  - by eapply raw_counted_step.
Qed.

(** X5: the idle counter is, modulo [2 ^ 64], what the storage of the object
    held at construction plus the number of workers inside the wait of line
    66; the increments of line 62 and the decrements of line 67 cancel for
    every worker that is not inside the wait. *)
Theorem idle_count_from_raw (raw n_threads : Z) (es : list event) (s : System) :
  run es (ThreadPool raw n_threads) = Some s →
  m_idle_count s = size_t (raw + Z.of_nat (waiting (workers s)))
  ∧ waiting (workers s) ≤ length (m_threads s).
Proof.
  intros Hr. split; [by eapply raw_counted_run|].
  destruct (pool_size _ _ _ _ Hr) as [-> <-]. apply waiting_le.
Qed.

(** X6: when the storage of the object held a number above the number of
    workers (and below [2 ^ 64] minus that number), the counter can never
    equal the number of workers, and [wait()] blocks in every state. *)
Theorem wait_blocks_forever (raw n_threads : Z) (es : list event) (s : System) :
  run es (ThreadPool raw n_threads) = Some s →
  (size_t n_threads < size_t raw)%Z →
  (size_t raw + size_t n_threads < 2 ^ 64)%Z →
  wait s = Blocked.
Proof.
  intros Hr Hlo Hhi.
  pose proof (raw_counted_run _ _ _ _ Hr) as Hc.
  destruct (pool_size _ _ _ _ Hr) as [Ht Hw].
  pose proof (waiting_le (workers s)) as Hle.
  pose proof (Z.mod_pos_bound n_threads (2 ^ 64)) as Hn.
  pose proof (Z.mod_pos_bound raw (2 ^ 64)) as Hraw.
  fold (size_t n_threads) in Hn. fold (size_t raw) in Hraw.
  rewrite <- size_t_add_l, size_t_small in Hc by lia.
  unfold wait, wait_seen, cv_wait, all_idle.
  replace (m_idle_count s =? size (m_threads s))%Z with false.
  - by rewrite andb_false_r.
  - symmetry. apply Z.eqb_neq. unfold size. lia.
Qed.

(** ** A pool without workers *)

Lemma step_no_workers (e : event) (s s' : System) :
  workers s = [] → step e s = Some s' →
  workers s' = [] ∧ popped s' = popped s ∧ invoked s' = invoked s.
Proof.
  intros Hws He. destruct e as [A f args| |i| |i]; simpl in He.
  - by injection He as <-.
  - by injection He as <-.
  - unfold thread_join in He.
    destruct (m_threads s !! i) as [[]|]; try done.
    destruct (workers s !! i) as [[]|]; try done.
    by injection He as <-.
  - unfold wait, wait_seen in He. simpl in He. destruct (all_idle s); [|done].
    by injection He as <-.
  - unfold work in He. by rewrite Hws in He.
Qed.

(** X7: a pool constructed with a worker count of zero accepts tasks and
    never executes one: every pushed task stays in the queue, no future ever
    becomes ready, and [wait()] blocks as soon as a task has been pushed. *)
Theorem no_workers_no_execution (raw n_threads : Z) (es : list event) (s : System) :
  run es (ThreadPool raw n_threads) = Some s →
  size_t n_threads = 0%Z →
  m_tasks s = pushed s
  ∧ invoked s = []
  ∧ (∀ t, future_get t s = Blocked)
  ∧ (pushed s ≠ [] → wait s = Blocked).
Proof.
  intros Hr Hn. pose proof (consistent_run _ _ _ _ Hr) as Hs.
  assert (workers s = [] ∧ popped s = [] ∧ invoked s = []) as (Hws & Hpo & Hinv).
  { apply run_steps in Hr. clear Hs. induction Hr as [|s1 e s2 _ IH He].
    - simpl. by rewrite Hn.
    - destruct IH as (H1 & H2 & H3).
      destruct (step_no_workers e s1 s2 H1 He) as (H4 & H5 & H6).
      split; [done|]. split; congruence. }
  assert (m_tasks s = pushed s) as Hq by (by rewrite (inv_fifo s Hs), Hpo).
  split; [done|]. split; [done|]. split.
  - intros t. unfold future_get. destruct (heap s !! t) as [pt|] eqn:Hpt; [|done].
    rewrite (inv_shared s Hs t pt Hpt), Hinv.
    rewrite decide_False; [done|]. by intros ?%elem_of_nil.
  - intros Hne. rewrite <- Hq in Hne.
    unfold wait, wait_seen, cv_wait, all_idle.
    by rewrite bool_decide_eq_false_2.
Qed.

(** ** join and the end of the workers *)

(** A worker that has returned from [work()] takes no further step. *)
Lemma step_finished (e : event) (s s' : System) (i : nat) :
  step e s = Some s' →
  length (workers s') = length (workers s)
  ∧ (workers s !! i = Some Finished → workers s' !! i = Some Finished).
Proof.
  intros He. destruct e as [A f args| |j| |j]; simpl in He.
  - by injection He as <-.
  - by injection He as <-.
  - unfold thread_join in He.
    destruct (m_threads s !! j) as [[]|]; try done.
    destruct (workers s !! j) as [[]|]; try done.
    by injection He as <-.
  - unfold wait, wait_seen in He. simpl in He. destruct (all_idle s); [|done].
    by injection He as <-.
  - apply work_work_step, work_step_workers in He
      as (w0 & w' & Hw0 & Hne0 & -> & _).
    rewrite length_insert. split; [done|]. intros Hi.
    destruct (decide (j = i)) as [->|Hji]; [congruence|].
    by rewrite list_lookup_insert_ne.
Qed.

Lemma run_finished (es : list event) (s s' : System) (i : nat) :
  run es s = Some s' →
  length (workers s') = length (workers s)
  ∧ (workers s !! i = Some Finished → workers s' !! i = Some Finished).
Proof.
  revert s. induction es as [|e es IH]; simpl; intros s.
  - by intros [= <-].
  - destruct (step e s) as [s1|] eqn:He; [|done]. intros Hr.
    destruct (step_finished e s s1 i He) as [H1 H2].
    destruct (IH s1 Hr) as [H3 H4]. split; [congruence | auto].
Qed.

Lemma run_join_finished (es : list event) (s s' : System) (i : nat) :
  run es s = Some s' → EJoinThread i ∈ es →
  workers s' !! i = Some Finished.
Proof.
  revert s. induction es as [|e es IH]; simpl; intros s Hr Hin.
  - by apply elem_of_nil in Hin.
  - destruct (step e s) as [s1|] eqn:He; [|done].
    apply elem_of_cons in Hin as [<-|Hin]; [|by eapply IH].
    apply (run_finished es s1 s' i Hr).
    simpl in He. unfold thread_join in He.
    destruct (m_threads s !! i) as [[]|]; try done.
    destruct (workers s !! i) as [[]|] eqn:Hw; try done.
    by injection He as <-.
Qed.

Lemma joined_all_finished (es : list event) (s0 s : System) :
  run es s0 = Some s →
  length (workers s0) = length (m_threads s0) →
  (∀ i, i < length (m_threads s0) → EJoinThread i ∈ es) →
  Forall (λ w, w = Finished) (workers s).
Proof.
  intros Hr Hlen Hjoin. apply Forall_lookup. intros i w Hw.
  assert (i < length (m_threads s0)) as Hi.
  { rewrite <- Hlen, <- (proj1 (run_finished es s0 s i Hr)). by eapply lookup_lt_Some. }
  pose proof (run_join_finished es s0 s i Hr (Hjoin i Hi)). congruence.
Qed.

(** X8: [join()] returns only after every worker has returned from
    [work()]: when the [t.join()] of every thread has returned, every worker
    is past line 71.  A worker that has returned never takes a step again. *)
Theorem join_waits_for_workers
    (raw n_threads : Z) (es es' : list event) (s s' : System) :
  run es (ThreadPool raw n_threads) = Some s →
  (∀ i, i < length (m_threads s) → EJoinThread i ∈ es) →
  run es' s = Some s' →
  Forall (λ w, w = Finished) (workers s)
  ∧ Forall (λ w, w = Finished) (workers s')
  ∧ ∀ i, work i s' = None.
Proof.
  intros Hr Hjoin Hr'.
  destruct (pool_size _ _ _ _ Hr) as [Ht Hw].
  assert (Forall (λ w, w = Finished) (workers s)) as Hall.
  { eapply joined_all_finished; [exact Hr| |].
    - simpl. by rewrite !length_replicate.
    - intros i Hi. apply Hjoin. simpl in Hi. rewrite length_replicate in Hi. lia. }
  assert (Forall (λ w, w = Finished) (workers s')) as Hall'.
  { apply run_steps in Hr'. induction Hr' as [|s1 e s2 _ IH He]; [done|].
    by destruct (step_all_finished e s1 s2 IH He). }
  split; [done|]. split; [done|].
  intros i. unfold work. destruct (workers s' !! i) as [w|] eqn:Hwi; [|done].
  by rewrite (Forall_lookup_1 _ _ _ _ Hall' Hwi).
Qed.

Lemma step_left_empty (e : event) (s s' : System) :
  is_push e = false → left_empty s → step e s = Some s' → left_empty s'.
Proof.
  intros Hp Hempty He. destruct e as [A f args| |i| |i]; simpl in He; try done.
  - by injection He as <-.
  - unfold thread_join in He.
    destruct (m_threads s !! i) as [[]|]; try done.
    destruct (workers s !! i) as [[]|]; try done.
    by injection He as <-.
  - unfold wait, wait_seen in He. simpl in He. destruct (all_idle s); [|done].
    by injection He as <-.
  - eapply work_step_left_empty. by apply work_work_step.
Qed.

Lemma run_left_empty (es : list event) (s s' : System) :
  Forall (λ e, is_push e = false) es → left_empty s →
  run es s = Some s' → left_empty s'.
Proof.
  revert s. induction es as [|e es IH]; simpl; intros s Hes Hempty.
  - by intros [= <-].
  - apply Forall_cons in Hes as [He Hes].
    destruct (step e s) as [s1|] eqn:Hstep; [|done].
    apply IH; [done|]. by eapply step_left_empty.
Qed.

(** X9: graceful shutdown, under any interleaving: take a state that leaves
    a worker alive (or an empty queue), and let no [push] follow it; once
    [join()] has returned, that is, once the [t.join()] of every thread has
    returned, the queue is empty, every task ever pushed has been executed
    and its future is ready. *)
Theorem join_completes_all_tasks
    (raw n_threads : Z) (es1 es2 : list event) (s1 s : System) :
  run es1 (ThreadPool raw n_threads) = Some s1 →
  left_empty s1 →
  Forall (λ e, is_push e = false) es2 →
  run es2 s1 = Some s →
  (∀ i, i < length (m_threads s) → EJoinThread i ∈ es1 ++ es2) →
  m_tasks s = [] ∧ ∀ t, t ∈ pushed s → ready t s.
Proof.
  intros Hr1 Hempty Hes2 Hr2 Hjoin.
  assert (run (es1 ++ es2) (ThreadPool raw n_threads) = Some s) as Hr.
  { rewrite run_app, Hr1. done. }
  pose proof (consistent_run _ _ _ _ Hr) as Hs.
  destruct (pool_size _ _ _ _ Hr) as [Ht Hw].
  assert (Forall (λ w, w = Finished) (workers s)) as Hall.
  { eapply joined_all_finished; [exact Hr| |].
    - simpl. by rewrite !length_replicate.
    - intros i Hi. apply Hjoin. simpl in Hi. rewrite length_replicate in Hi. lia. }
  pose proof (run_left_empty es2 s1 s Hes2 Hempty Hr2) as Hempty'.
  split; [by apply Hempty'|].
  intros t Hin. eapply settled; eauto using calling_finished.
Qed.

Lemma run_all_finished (es : list event) (s s' : System) :
  Forall (λ w, w = Finished) (workers s) → run es s = Some s' →
  Forall (λ w, w = Finished) (workers s').
Proof.
  intros Hall Hr%run_steps. induction Hr as [|s1 e s2 _ IH He]; [done|].
  by destruct (step_all_finished e s1 s2 IH He).
Qed.

Lemma waiting_finished (ws : list worker) :
  Forall (λ w, w = Finished) ws → waiting ws = 0.
Proof.
  unfold waiting. induction 1 as [|w ws -> _ IH]; [done|].
  rewrite filter_cons. by rewrite decide_False.
Qed.

(** X10: when all the workers have returned, [wait()] blocks from then on,
    unless the storage of the object held exactly the number of workers
    where [m_idle_count] lies; in zeroed storage this is every pool that has
    a worker. *)
Theorem wait_after_join_blocks
    (raw n_threads : Z) (es es' : list event) (s s' : System) :
  run es (ThreadPool raw n_threads) = Some s →
  Forall (λ w, w = Finished) (workers s) →
  size_t raw ≠ size_t n_threads →
  run es' s = Some s' →
  wait s' = Blocked.
Proof.
  intros Hr Hall Hraw Hr'.
  pose proof (run_all_finished es' s s' Hall Hr') as Hall'.
  assert (run (es ++ es') (ThreadPool raw n_threads) = Some s') as Hrr.
  { rewrite run_app, Hr. done. }
  pose proof (raw_counted_run _ _ _ _ Hrr) as Hc.
  rewrite (waiting_finished _ Hall'), Z.add_0_r in Hc.
  destruct (pool_size _ _ _ _ Hrr) as [Ht _].
  pose proof (Z.mod_pos_bound n_threads (2 ^ 64)) as Hn.
  fold (size_t n_threads) in Hn.
  unfold wait, wait_seen, cv_wait, all_idle.
  replace (m_idle_count s' =? size (m_threads s'))%Z with false.
  - by rewrite andb_false_r.
  - symmetry. apply Z.eqb_neq. unfold size. rewrite Hc, Ht. lia.
Qed.

(** ** The stop flag *)

Lemma step_stop_origin (e : event) (s s' : System) :
  step e s = Some s' → m_stop s' = true → m_stop s = true ∨ e = EJoinStop.
Proof.
  intros He Hstop. destruct e as [A f args| |i| |i]; simpl in He.
  - injection He as <-. by left.
  - by right.
  - unfold thread_join in He.
    destruct (m_threads s !! i) as [[]|]; try done.
    destruct (workers s !! i) as [[]|]; try done.
    injection He as <-. by left.
  - unfold wait, wait_seen in He. simpl in He. destruct (all_idle s); [|done].
    injection He as <-. by left.
  - left. apply work_work_step in He.
    destruct He as [w o Hw Hb Hp|w o Hw Hb Hst Hq|w o task rest Hw Hb Hq
                   |task pt0 Hw Hpt Hst|task Hw Hbad]; simpl in *; done.
Qed.

Lemma run_stop_origin (es : list event) (s s' : System) :
  run es s = Some s' → m_stop s' = true → m_stop s = true ∨ EJoinStop ∈ es.
Proof.
  revert s. induction es as [|e es IH]; simpl; intros s.
  - intros [= <-]. by left.
  - destruct (step e s) as [s1|] eqn:He; [|done]. intros Hr Hstop.
    destruct (IH s1 Hr Hstop) as [H1|Hin].
    + destruct (step_stop_origin e s s1 He H1) as [?| ->]; [by left|].
      right. by left.
    + right. by right.
Qed.

(** X11: the stop flag is set exactly by [join()]: in a state that an
    execution reaches the flag is set if and only if the first lines of
    [join()] are among the steps taken; no operation resets it. *)
Theorem stop_flag_by_join (raw n_threads : Z) (es : list event) (s : System) :
  run es (ThreadPool raw n_threads) = Some s →
  (m_stop s = true ↔ EJoinStop ∈ es).
Proof.
  intros Hr. split.
  - intros Hstop. by destruct (run_stop_origin _ _ _ Hr Hstop).
  - by eapply run_stopped.
Qed.

(** ** The output *)

Lemma work_take_cout (i : nat) (s : System) : cout (work_take i s) = cout s.
Proof.
  unfold work_take. simpl.
  destruct (m_stop s && bool_decide (m_tasks s = [])); [done|].
  by destruct (m_tasks s).
Qed.

Lemma step_cout (e : event) (s s' : System) :
  step e s = Some s' →
  cout s' = cout s
  ∨ ∃ l, cout s' = cout s ++ [l] ∧ shows (size (m_threads s)) l.
Proof.
  intros He. destruct e as [A f args| |i| |i]; simpl in He.
  - injection He as <-. by left.
  - injection He as <-. by left.
  - unfold thread_join in He.
    destruct (m_threads s !! i) as [[]|]; try done.
    destruct (workers s !! i) as [[]|]; try done.
    injection He as <-. by left.
  - unfold wait, wait_seen in He. simpl in He.
    destruct (all_idle s) eqn:Hp; [|done]. injection He as <-.
    unfold all_idle in Hp. apply andb_true_iff in Hp as [_ Hc%Z.eqb_eq].
    right. eexists. split; [reflexivity|]. done.
  - unfold work in He. destruct (workers s !! i) as [[| |task| |]|]; try done;
      injection He as <-.
    + unfold work_lock. simpl.
      destruct (size_t (m_idle_count s + 1) =? size (m_threads s))%Z eqn:Hc.
      * apply Z.eqb_eq in Hc. right.
        exists (work_line (size_t (m_idle_count s + 1)) (size (m_threads s))).
        split; [|split; [exact Hc | reflexivity]].
        destruct (task_or_stop _); [by rewrite work_take_cout | done].
      * left. destruct (task_or_stop _); [by rewrite work_take_cout | done].
    + left. unfold work_wake. destruct (task_or_stop s); [apply work_take_cout | done].
    + left. unfold work_call. by destruct (packaged_task_call task (heap s)).
Qed.

(** X12: the pool prints a line only when the idle counter equals the
    number of threads: every line of the output, from [work()] or from
    [wait()], shows the number of threads twice. *)
Theorem output_lines (raw n_threads : Z) (es : list event) (s : System) :
  run es (ThreadPool raw n_threads) = Some s →
  Forall (shows (size_t n_threads)) (cout s).
Proof.
  intros Hr.
  assert (∀ es' s', run es' (ThreadPool raw n_threads) = Some s' →
            size (m_threads s') = size_t n_threads) as Hsize.
  { intros es' s' Hr'. destruct (pool_size _ _ _ _ Hr') as [Ht _].
    pose proof (Z.mod_pos_bound n_threads (2 ^ 64)) as Hb.
    unfold size. rewrite Ht. unfold size_t in *. lia. }
  revert s Hr. induction es as [|e es IH] using rev_ind; intros s Hr.
  - injection Hr as <-. simpl. constructor.
  - rewrite run_app in Hr.
    destruct (run es (ThreadPool raw n_threads)) as [s1|] eqn:Hr1; [|done].
    simpl in Hr. destruct (step e s1) as [s2|] eqn:He; [|done].
    injection Hr as <-.
    destruct (step_cout e s1 s2 He) as [->|(l & -> & Hl)]; [by apply IH|].
    apply Forall_app. split; [by apply IH|].
    constructor; [|constructor]. by rewrite <- (Hsize es s1 Hr1).
Qed.

(** ** One task on an idle pool *)

(** X13: a task pushed while a worker is inside the wait, with the queue
    empty and the stop flag clear, is executed by that worker in three
    steps (it wakes and pops, calls, and goes back to the wait): the future
    then gives what [f] gives on the arguments, and the queue, the idle
    counter and the workers are as they were before the push. *)
Theorem push_cycle {A : Type} (f : A → outcome) (args : A)
    (raw n_threads : Z) (es : list event) (s : System) (i : nat) :
  run es (ThreadPool raw n_threads) = Some s →
  m_tasks s = [] → m_stop s = false → workers s !! i = Some TaskWait →
  ∃ s',
    run [EPush f args; EWork i; EWork i; EWork i] s = Some s'
    ∧ future_get (length (heap s)) s' = surfaces (f args)
    ∧ workers s' = workers s
    ∧ m_tasks s' = []
    ∧ m_idle_count s' = m_idle_count s
    ∧ invoked s' = invoked s ++ [length (heap s)].
Proof.
  intros Hr Hq Hstop Hw.
  pose proof (raw_counted_run _ _ _ _ Hr) as Hc.
  assert (i < length (workers s)) as Hi by (by eapply lookup_lt_Some).
  destruct s as [q c b ts ws h o pu po inv]; simpl in *. subst q b.
  unfold work. simpl. rewrite Hw.
  unfold work_wake, task_or_stop, work_take. simpl.
  rewrite list_lookup_insert_eq by done.
  unfold work_call, packaged_task_call. simpl.
  rewrite lookup_app_r by done. rewrite Nat.sub_diag. simpl.
  rewrite list_lookup_insert_eq by (by rewrite length_insert).
  unfold work_lock, task_or_stop. simpl.
  assert (size_t (size_t (c - 1) + 1) = c) as Hback.
  { rewrite size_t_add_l. replace (c - 1 + 1)%Z with c by lia.
    rewrite Hc. apply size_t_idem. }
  assert (<[i := TaskWait]> (<[i := AtLock]> (<[i := Calling (length h)]> ws)) = ws)
    as Hws.
  { rewrite !list_insert_insert_eq. by apply list_insert_id. }
  assert (<[length h := PackagedTask (λ _, f args) (Some (f args))]>
            (h ++ [PackagedTask (λ _, f args) None]) !! length h
          = Some (PackagedTask (λ _, f args) (Some (f args)))) as Hpt.
  { apply list_lookup_insert_eq. rewrite length_app. simpl. lia. }
  destruct (_ =? _)%Z; simpl; (eexists; split; [reflexivity|]); simpl;
    (split; [unfold future_get; simpl; rewrite Hpt; simpl; by destruct (f args)|]);
    (split; [exact Hws|]); (split; [done|]); (split; [exact Hback | done]).
Qed.



(** ** join, the first time *)

Lemma join_threads_done (k i : nat) (s : System) :
  (∀ j, i ≤ j < i + k →
     m_threads s !! j = Some Joinable ∧ workers s !! j = Some Finished) →
  ∃ s',
    join_threads i k s = Done s'
    ∧ workers s' = workers s ∧ m_tasks s' = m_tasks s ∧ m_stop s' = m_stop s
    ∧ heap s' = heap s
    ∧ length (m_threads s') = length (m_threads s)
    ∧ (∀ j, i ≤ j < i + k → m_threads s' !! j = Some NotJoinable)
    ∧ (∀ j, j < i → m_threads s' !! j = m_threads s !! j).
Proof.
  revert i s. induction k as [|k IH]; intros i s Hall; simpl.
  - exists s. repeat split; try done. intros j Hj. lia.
  - destruct (Hall i ltac:(lia)) as [Ht Hw].
    unfold thread_join. rewrite Ht, Hw. simpl.
    set (s1 := set_m_threads (<[i := NotJoinable]> (m_threads s)) s).
    assert (i < length (m_threads s)) as Hi by (by eapply lookup_lt_Some).
    destruct (IH (S i) s1) as (s' & Hj & Hws & Hq & Hst & Hh & Hlen & Hin & Hout).
    { intros j Hj. simpl. rewrite list_lookup_insert_ne by lia. apply Hall. lia. }
    exists s'. split; [done|]. simpl in *. rewrite length_insert in Hlen.
    repeat split; try done.
    + intros j Hr. destruct (decide (j = i)) as [->|Hne].
      * rewrite Hout by lia. by apply list_lookup_insert_eq.
      * apply Hin. lia.
    + intros j Hr. rewrite Hout by lia. by rewrite list_lookup_insert_ne by lia.
Qed.

(** X15: [join()] returns once every worker has returned from [work()]:
    called when all the workers have returned and no thread has been joined
    yet, it runs through without blocking or throwing, sets the stop flag,
    leaves no thread joinable, and touches neither the queue nor the
    futures. *)
Theorem join_returns_when_finished
    (raw n_threads : Z) (es : list event) (s : System) :
  run es (ThreadPool raw n_threads) = Some s →
  Forall (λ w, w = Finished) (workers s) →
  Forall (λ t, t = Joinable) (m_threads s) →
  ∃ s',
    join s = Done s'
    ∧ m_stop s' = true
    ∧ Forall (λ t, t = NotJoinable) (m_threads s')
    ∧ workers s' = workers s
    ∧ m_tasks s' = m_tasks s
    ∧ heap s' = heap s.
Proof.
  intros Hr Hfin Hjoin. destruct (pool_size _ _ _ _ Hr) as [Ht Hw].
  unfold join.
  destruct (join_threads_done (length (m_threads (join_stop s))) 0 (join_stop s))
    as (s' & Hj & Hws & Hq & Hst & Hh & Hlen & Hin & _).
  { intros j Hj. simpl in *.
    destruct (lookup_lt_is_Some_2 (m_threads s) j ltac:(lia)) as [t Htj].
    destruct (lookup_lt_is_Some_2 (workers s) j ltac:(lia)) as [w Hwj].
    rewrite Htj, Hwj.
    by rewrite (Forall_lookup_1 _ _ _ _ Hjoin Htj), (Forall_lookup_1 _ _ _ _ Hfin Hwj). }
  exists s'. split; [done|]. split; [done|]. split; [|done].
  apply Forall_lookup. intros j t Htj.
  pose proof (lookup_lt_Some _ _ _ Htj) as Hlt. rewrite Hlen in Hlt.
  rewrite Hin in Htj by lia. congruence.
Qed.

End Proofs.

(** [fifo_order] on the run [two_tasks] of the pool of one worker. *)
Lemma fifo_order_witness :
  run two_tasks pool1 = Some calling_second
  ∧ size_t 1 = 1%Z
  ∧ pushed calling_second = popped calling_second ++ m_tasks calling_second
  ∧ pushed calling_second
    = invoked calling_second ++ calling (workers calling_second)
      ++ m_tasks calling_second.
Proof.
  destruct (fifo_order 0 1 two_tasks calling_second eq_refl) as [Hfifo Hone].
  split; [reflexivity|]. split; [reflexivity|].
  split; [exact Hfifo | exact (Hone eq_refl)].
Defined.

(** [task_outcome_in_future] for the failing task, which the worker is
    calling in [calling_second]. *)
Lemma task_outcome_in_future_witness :
  run two_tasks pool1 = Some calling_second
  ∧ workers calling_second !! 0 = Some (Calling 1)
  ∧ ∃ pt s',
      heap calling_second !! 1 = Some pt
      ∧ work 0 calling_second = Some s'
      ∧ future_get 1 s' = surfaces (stored_task pt ())
      ∧ workers s' !! 0 = Some AtLock
      ∧ is_Some (work 0 s')
      ∧ Terminate ∉ workers s'.
Proof.
  split; [reflexivity|]. split; [reflexivity|].
  apply (task_outcome_in_future 0 1 two_tasks calling_second 0 1); reflexivity.
Defined.

(** [push_binds_arguments] for [plus_one] and 5 on the fresh pool. *)
Lemma push_binds_arguments_witness :
  run [] pool1 = Some pool1
  ∧ ∃ future s1,
      push plus_one 5%Z pool1 = Done (future, s1)
      ∧ (∃ pt, heap s1 !! future = Some pt ∧ stored_task pt () = plus_one 5%Z)
      ∧ ∀ s2, steps s1 s2 → future ∈ invoked s2 →
          future_get future s2 = surfaces (plus_one 5%Z).
Proof.
  split; [reflexivity|].
  apply (push_binds_arguments plus_one 5%Z 0 1 [] pool1). reflexivity.
Defined.

(** [graceful_drain] in [stopping]: two tasks are queued, the flag is set
    and the worker has not yet taken the lock. *)
Lemma graceful_drain_witness :
  run stop_with_two pool1 = Some stopping
  ∧ m_stop stopping = true
  ∧ left_empty stopping
  ∧ (∀ sched s',
        run (EWork <$> sched) stopping = Some s' →
        length sched ≤ remaining stopping
        ∧ (Forall (λ w, w = Finished) (workers s') →
           m_tasks s' = [] ∧ ∀ t, t ∈ pushed stopping → ready t s'))
  ∧ (let s' := drain (S (remaining stopping)) stopping in
     steps stopping s'
     ∧ Forall (λ w, w = Finished) (workers s')
     ∧ m_tasks s' = []
     ∧ ∀ t, t ∈ pushed stopping → ready t s').
Proof.
  assert (left_empty stopping) as Hempty.
  { intros Hall. apply Forall_cons in Hall as [Hw _]. discriminate Hw. }
  split; [reflexivity|]. split; [reflexivity|]. split; [exact Hempty|].
  apply (graceful_drain 0 1 stop_with_two stopping); [reflexivity..|exact Hempty].
Defined.

(** [join_again] after [whole_join]. *)
Lemma join_again_witness :
  run whole_join pool1 = Some joined
  ∧ EJoinStop ∈ whole_join
  ∧ (∀ i, i < length (m_threads pool1) → EJoinThread i ∈ whole_join)
  ∧ m_stop joined = true
  ∧ Forall (λ t, t = NotJoinable) (m_threads joined)
  ∧ join_stop joined = joined
  ∧ join joined = if decide (m_threads joined = [])
                  then Done joined
                  else Throw system_error_invalid_argument.
Proof.
  assert (EJoinStop ∈ whole_join) as Hstop by (by left).
  assert (∀ i, i < length (m_threads pool1) → EJoinThread i ∈ whole_join) as Hall.
  { intros [|i] Hi; [|simpl in Hi; lia]. right. right. by left. }
  split; [reflexivity|]. split; [exact Hstop|]. split; [exact Hall|].
  apply (join_again whole_join pool1 joined); [reflexivity | exact Hstop | exact Hall].
Defined.

(** C7, the claim as the spec states it, fails: after a completed call of
    [join()] on a pool of one worker, a second call does not return; it
    throws [std::system_error]. *)
Lemma join_twice_throws :
  run whole_join pool1 = Some joined
  ∧ join joined = Throw system_error_invalid_argument
  ∧ ¬ ∃ s, join joined = Done s.
Proof.
  split; [reflexivity|]. split; [reflexivity|]. intros [s Hs]. discriminate Hs.
Qed.

(** [push_after_join] in [joined], where the only worker has returned. *)
Lemma push_after_join_witness :
  m_stop joined = true
  ∧ Forall (λ w, w = Finished) (workers joined)
  ∧ ∃ future s1,
      push plus_one 5%Z joined = Done (future, s1)
      ∧ m_tasks s1 = m_tasks joined ++ [future]
      ∧ m_stop s1 = true
      ∧ ∀ s2, steps s1 s2 →
          future ∈ m_tasks s2 ∧ future_get future s2 = Blocked.
Proof.
  assert (Forall (λ w, w = Finished) (workers joined)) as Hall.
  { repeat constructor. }
  destruct (push_after_join plus_one 5%Z joined eq_refl)
    as (future & s1 & Hpush & Hq & Hstop & Hnever).
  split; [reflexivity|]. split; [exact Hall|].
  exists future, s1.
  split; [exact Hpush|]. split; [exact Hq|]. split; [exact Hstop|].
  exact (Hnever Hall).
Defined.

(** C8, the claim as the spec states it, fails: after a completed call of
    [join()], [push] does not fail; it returns a future and the task is in
    the queue. *)
Lemma push_after_join_accepted :
  run whole_join pool1 = Some joined
  ∧ m_stop joined = true
  ∧ (∃ s1, push plus_one 5%Z joined = Done (0, s1) ∧ m_tasks s1 = [0])
  ∧ ¬ ∃ x, push plus_one 5%Z joined = Throw x.
Proof.
  split; [reflexivity|]. split; [reflexivity|]. split.
  - eexists. split; reflexivity.
  - intros [x Hx]. discriminate Hx.
Qed.

(** C9, the claim as the spec states it, fails: with a
    [hardware_concurrency()] of zero, or an argument of zero, the pool has no
    worker. *)
Lemma pool_without_workers :
  ¬ (1 ≤ length (m_threads (@ThreadPool_default Z nat 0 0)))
  ∧ ¬ (1 ≤ length (m_threads (@ThreadPool Z nat 0 0))).
Proof. split; simpl; lia. Qed.

(** C6, on the code: constructed in storage that held a seven where
    [m_idle_count] lies, the pool of two workers starts with an idle count of
    seven, not zero; the two workers and the stop flag are as claimed. *)
Theorem constructor_keeps_raw_idle_count :
  m_idle_count (@ThreadPool Z nat 7 2) = 7%Z
  ∧ m_idle_count (@ThreadPool Z nat 7 2) ≠ 0%Z
  ∧ m_stop (@ThreadPool Z nat 7 2) = false
  ∧ workers (@ThreadPool Z nat 7 2) = [AtLock; AtLock]
  ∧ m_threads (@ThreadPool Z nat 7 2) = [Joinable; Joinable].
Proof.
  split; [reflexivity|]. split; [|repeat split].
  intros H. vm_compute in H. discriminate H.
Qed.

(** C5, on the code: the same construction breaks the bound on the idle
    counter at once, and in [in_flight] the counter equals the number of
    workers while a worker is executing a task. *)
Theorem idle_invariant_broken :
  ¬ (0 ≤ m_idle_count (@ThreadPool Z nat 7 2)
       ≤ size (m_threads (@ThreadPool Z nat 7 2)))%Z
  ∧ run one_in_flight pool2_raw1 = Some in_flight
  ∧ m_idle_count in_flight = size (m_threads in_flight)
  ∧ workers in_flight !! 0 = Some (Calling 0).
Proof.
  split; [|repeat split]. intros [_ H]. vm_compute in H. by apply H.
Qed.

(** C1, on the code: in [in_flight] a call of [wait()] returns although the
    first worker is executing the pushed task, whose future is not ready. *)
Theorem wait_returns_during_call :
  run one_in_flight pool2_raw1 = Some in_flight
  ∧ workers in_flight !! 0 = Some (Calling 0)
  ∧ future_get 0 in_flight = Blocked
  ∧ ∃ s', wait in_flight = Done s'.
Proof.
  split; [reflexivity|]. split; [reflexivity|]. split; [reflexivity|].
  eexists. reflexivity.
Qed.

(** ** Further properties, on the concrete runs *)

(** [pool_size_fixed] on the run [two_tasks]. *)
Lemma pool_size_fixed_witness :
  run two_tasks pool1 = Some calling_second
  ∧ size (m_threads calling_second) = size_t 1
  ∧ length (workers calling_second) = length (m_threads calling_second).
Proof.
  split; [reflexivity|].
  apply (pool_size_fixed 0 1 two_tasks calling_second). reflexivity.
Defined.

(** [exactly_once] on the run [two_tasks]. *)
Lemma exactly_once_witness :
  run two_tasks pool1 = Some calling_second
  ∧ invoked calling_second ++ calling (workers calling_second)
      ++ m_tasks calling_second ≡ₚ pushed calling_second
  ∧ NoDup (invoked calling_second ++ calling (workers calling_second)
             ++ m_tasks calling_second).
Proof.
  split; [reflexivity|].
  apply (exactly_once 0 1 two_tasks calling_second). reflexivity.
Defined.

(** [future_settled] for the first future while the second task is
    called. *)
Lemma future_settled_witness :
  run two_tasks pool1 = Some calling_second
  ∧ run call_second calling_second = Some second_called
  ∧ future_get 0 calling_second ≠ Blocked
  ∧ future_get 0 second_called = future_get 0 calling_second.
Proof.
  assert (future_get 0 calling_second ≠ Blocked) as Hready by discriminate.
  split; [reflexivity|]. split; [reflexivity|]. split; [exact Hready|].
  apply (future_settled 0 1 two_tasks call_second calling_second second_called 0);
    [reflexivity | reflexivity | exact Hready].
Defined.

(** [push_fresh_future] in [calling_second]. *)
Lemma push_fresh_future_witness :
  run two_tasks pool1 = Some calling_second
  ∧ ∃ future s1,
      push plus_one 7%Z calling_second = Done (future, s1)
      ∧ (future ∉ pushed calling_second)
      ∧ pushed s1 = pushed calling_second ++ [future]
      ∧ future_get future s1 = Blocked
      ∧ ∀ t, t ≠ future → future_get t s1 = future_get t calling_second.
Proof.
  split; [reflexivity|].
  apply (push_fresh_future plus_one 7%Z 0 1 two_tasks calling_second). reflexivity.
Defined.

(** [idle_count_from_raw] in [in_flight]. *)
Lemma idle_count_from_raw_witness :
  run one_in_flight pool2_raw1 = Some in_flight
  ∧ m_idle_count in_flight = size_t (1 + Z.of_nat (waiting (workers in_flight)))
  ∧ waiting (workers in_flight) ≤ length (m_threads in_flight).
Proof.
  split; [reflexivity|].
  apply (idle_count_from_raw 1 2 one_in_flight in_flight). reflexivity.
Defined.

(** [wait_blocks_forever] for two workers and a raw seven. *)
Lemma wait_blocks_forever_witness :
  run first_waits pool2_raw7 = Some raw7_waiting
  ∧ (size_t 2 < size_t 7)%Z
  ∧ (size_t 7 + size_t 2 < 2 ^ 64)%Z
  ∧ wait raw7_waiting = Blocked.
Proof.
  split; [reflexivity|]. split; [reflexivity|]. split; [reflexivity|].
  apply (wait_blocks_forever 7 2 first_waits raw7_waiting); reflexivity.
Defined.

(** [no_workers_no_execution] after one push on the pool without
    workers. *)
Lemma no_workers_no_execution_witness :
  run one_push pool0 = Some queued_forever
  ∧ size_t 0 = 0%Z
  ∧ pushed queued_forever ≠ []
  ∧ m_tasks queued_forever = pushed queued_forever
  ∧ invoked queued_forever = []
  ∧ (∀ t, future_get t queued_forever = Blocked)
  ∧ wait queued_forever = Blocked.
Proof.
  assert (pushed queued_forever ≠ []) as Hne by discriminate.
  destruct (no_workers_no_execution 0 0 one_push queued_forever eq_refl eq_refl)
    as (Hq & Hinv & Hget & Hwait).
  split; [reflexivity|]. split; [reflexivity|]. split; [exact Hne|].
  split; [exact Hq|]. split; [exact Hinv|]. split; [exact Hget|].
  exact (Hwait Hne).
Defined.

(** [join_waits_for_workers] after [whole_join], followed by a push. *)
Lemma join_waits_for_workers_witness :
  run whole_join pool1 = Some joined
  ∧ (∀ i, i < length (m_threads joined) → EJoinThread i ∈ whole_join)
  ∧ run one_push joined = Some joined_pushed
  ∧ Forall (λ w, w = Finished) (workers joined)
  ∧ Forall (λ w, w = Finished) (workers joined_pushed)
  ∧ ∀ i, work i joined_pushed = None.
Proof.
  assert (∀ i, i < length (m_threads joined) → EJoinThread i ∈ whole_join) as Hall.
  { intros [|i] Hi; [|simpl in Hi; lia]. right. right. by left. }
  split; [reflexivity|]. split; [exact Hall|]. split; [reflexivity|].
  apply (join_waits_for_workers 0 1 whole_join one_push joined joined_pushed);
    [reflexivity | exact Hall | reflexivity].
Defined.

(** [join_completes_all_tasks]: two pushes, then [join()] and the worker
    with no further push. *)
Lemma join_completes_all_tasks_witness :
  run stop_with_two pool1 = Some stopping
  ∧ left_empty stopping
  ∧ Forall (λ e, is_push e = false) finish_two
  ∧ run finish_two stopping = Some all_done
  ∧ (∀ i, i < length (m_threads all_done) → EJoinThread i ∈ stop_with_two ++ finish_two)
  ∧ m_tasks all_done = []
  ∧ ∀ t, t ∈ pushed all_done → ready t all_done.
Proof.
  assert (left_empty stopping) as Hempty.
  { intros Hall. apply Forall_cons in Hall as [Hw _]. discriminate Hw. }
  assert (Forall (λ e : @event Z nat, is_push e = false) finish_two) as Hnp.
  { repeat constructor. }
  assert (∀ i, i < length (m_threads all_done) →
            EJoinThread i ∈ stop_with_two ++ finish_two) as Hall.
  { intros [|i] Hi; [|simpl in Hi; lia]. do 8 right. by left. }
  split; [reflexivity|]. split; [exact Hempty|]. split; [exact Hnp|].
  split; [reflexivity|]. split; [exact Hall|].
  apply (join_completes_all_tasks 0 1 stop_with_two finish_two stopping all_done);
    [reflexivity | exact Hempty | exact Hnp | reflexivity | exact Hall].
Defined.

(** [wait_after_join_blocks] after [whole_join], followed by a push. *)
Lemma wait_after_join_blocks_witness :
  run whole_join pool1 = Some joined
  ∧ Forall (λ w, w = Finished) (workers joined)
  ∧ size_t 0 ≠ size_t 1
  ∧ run one_push joined = Some joined_pushed
  ∧ wait joined_pushed = Blocked.
Proof.
  assert (Forall (λ w, w = Finished) (workers joined)) as Hall.
  { repeat constructor. }
  assert (size_t 0 ≠ size_t 1) as Hraw by discriminate.
  split; [reflexivity|]. split; [exact Hall|]. split; [exact Hraw|].
  split; [reflexivity|].
  apply (wait_after_join_blocks 0 1 whole_join one_push joined joined_pushed);
    [reflexivity | exact Hall | exact Hraw | reflexivity].
Defined.

(** [stop_flag_by_join] after [whole_join]. *)
Lemma stop_flag_by_join_witness :
  run whole_join pool1 = Some joined
  ∧ (m_stop joined = true ↔ EJoinStop ∈ whole_join).
Proof.
  split; [reflexivity|].
  apply (stop_flag_by_join 0 1 whole_join joined). reflexivity.
Defined.

(** [output_lines] on the run [one_in_flight]. *)
Lemma output_lines_witness :
  run one_in_flight pool2_raw1 = Some in_flight
  ∧ Forall (shows (size_t 2)) (cout in_flight).
Proof.
  split; [reflexivity|].
  apply (output_lines 1 2 one_in_flight in_flight). reflexivity.
Defined.

(** [push_cycle] in [idle1], where the worker is inside the wait. *)
Lemma push_cycle_witness :
  run reach_wait pool1 = Some idle1
  ∧ m_tasks idle1 = []
  ∧ m_stop idle1 = false
  ∧ workers idle1 !! 0 = Some TaskWait
  ∧ ∃ s',
      run [EPush always_fails 3%Z; EWork 0; EWork 0; EWork 0] idle1 = Some s'
      ∧ future_get (length (heap idle1)) s' = surfaces (always_fails 3%Z)
      ∧ workers s' = workers idle1
      ∧ m_tasks s' = []
      ∧ m_idle_count s' = m_idle_count idle1
      ∧ invoked s' = invoked idle1 ++ [length (heap idle1)].
Proof.
  split; [reflexivity|]. split; [reflexivity|]. split; [reflexivity|].
  split; [reflexivity|].
  apply (push_cycle always_fails 3%Z 0 1 reach_wait idle1 0); reflexivity.
Defined.


(** [join_returns_when_finished] in [exited]. *)
Lemma join_returns_when_finished_witness :
  run stop_and_exit pool1 = Some exited
  ∧ Forall (λ w, w = Finished) (workers exited)
  ∧ Forall (λ t, t = Joinable) (m_threads exited)
  ∧ ∃ s',
      join exited = Done s'
      ∧ m_stop s' = true
      ∧ Forall (λ t, t = NotJoinable) (m_threads s')
      ∧ workers s' = workers exited
      ∧ m_tasks s' = m_tasks exited
      ∧ heap s' = heap exited.
Proof.
  assert (Forall (λ w, w = Finished) (workers exited)) as Hfin.
  { repeat constructor. }
  assert (Forall (λ t, t = Joinable) (m_threads exited)) as Hjoin.
  { repeat constructor. }
  split; [reflexivity|]. split; [exact Hfin|]. split; [exact Hjoin|].
  apply (join_returns_when_finished 0 1 stop_and_exit exited);
    [reflexivity | exact Hfin | exact Hjoin].
Defined.
